(** * HeTr: heterogeneous transformer orchestration

    A shallow embedding of [ngraph/transformers/hetrtransform.py]: the
    module-level [build_transformer], the build ([HetrComputation.__init__])
    and the invocation ([HetrComputation.__call__]) of a distributed
    computation, and [HetrTransformer.close].

    Python objects live in an arena ([heap]) addressed by their identity;
    dictionaries are finite maps; an [OrderedSet] and a dictionary's
    iteration order are lists; remote calls on the worker clients are
    recorded in an event log; a raised exception is [None]. *)

From Stdlib Require Import ZArith String Ascii List Lia.
From stdpp Require Import base ssreflect option list gmap strings fin_maps.

Set Warnings "-register-all,-rewrite-rw,-clear-no-such-hyp".
Local Open Scope string_scope.
Local Open Scope list_scope.

(** ** Python strings *)

(** [needle in hay] on two [str] values: substring test. *)
Fixpoint str_contains (needle hay : string) : bool :=
  String.prefix needle hay ||
  match hay with
  | EmptyString => false
  | String _ hay' => str_contains needle hay'
  end.

(** ** Operations, metadata and the object arena *)

(** An operation node is known by its identity. *)
Definition op := nat.

(** Values stored in an [op.metadata] dictionary. *)
Inductive mval :=
| MInt (z : Z)
| MStr (s : string)
| MBool (b : bool)
| MOp (o : op)
| MList (l : list mval)
| MTuple (l : list mval).

(** The classes the source tells apart with [isinstance]. *)
Inductive op_class := ResultOp | TensorValueOp | OtherOp.

Record node := Node {
  node_class : op_class;
  node_args : list op;
  node_states_read : list op;
  node_metadata : gmap string mval
}.

Abbreviation heap := (gmap op node).

Definition metadata (σ : heap) (o : op) : gmap string mval :=
  match σ !! o with
  | Some n => node_metadata n
  | None => ∅
  end.

Definition class_of (σ : heap) (o : op) : option op_class :=
  node_class <$> σ !! o.

Definition args_of (σ : heap) (o : op) : list op :=
  match σ !! o with
  | Some n => node_args n
  | None => []
  end.

(** [op.metadata[k] = v] *)
Definition set_metadata (o : op) (k : string) (v : mval) (σ : heap) : heap :=
  alter (λ n, Node (node_class n) (node_args n) (node_states_read n)
                   (<[k := v]> (node_metadata n))) o σ.

(** [isinstance(x, (list, tuple))] *)
Definition is_list_or_tuple (v : mval) : bool :=
  match v with
  | MList _ | MTuple _ => true
  | _ => false
  end.

(** ** OrderedSet *)

(** An [OrderedSet] is the list of its members in insertion order. *)
Definition oset_add (s : list op) (x : op) : list op :=
  if bool_decide (x ∈ s) then s else s ++ [x].

(** [s.update(xs)], and [s | t] for a fresh result. *)
Definition oset_update (s xs : list op) : list op := foldl oset_add s xs.

Definition oset_union (s t : list op) : list op := oset_update s t.

(** ** Graph serializer (chunking loop of the build) *)

Definition _OPS_PER_MSG : Z := 10.

Section Serializer.
Context {PbOp PbEdge : Type}.
(** [serde.op_to_protobuf] and [serde.add_edges] are collaborators; the
    latter appends the edges of [o] to [pb_edges]. *)
Variable op_to_protobuf : heap → op → PbOp.
Variable add_edges : heap → list PbEdge → list PbOp → op → list PbEdge.

Definition chunk : Type := list PbOp * list PbEdge.

(** The body of [for i, o in enumerate(whole_graph)], from index [i] on. *)
Fixpoint chunk_loop (σ : heap) (len i : Z) (todo : list op)
    (pb_ops : list PbOp) (pb_edges : list PbEdge)
    (pb_whole_graph : list chunk) : list chunk :=
  match todo with
  | [] => pb_whole_graph
  | o :: todo' =>
      let pb_ops := pb_ops ++ [op_to_protobuf σ o] in
      let pb_edges := add_edges σ pb_edges pb_ops o in
      if (negb (i =? 0) && (i mod _OPS_PER_MSG =? 0) || (i =? len - 1))%Z
      then chunk_loop σ len (i + 1)%Z todo' [] []
             (pb_whole_graph ++ [(pb_ops, pb_edges)])
      else chunk_loop σ len (i + 1)%Z todo' pb_ops pb_edges pb_whole_graph
  end.

Definition serialize_whole_graph (σ : heap) (whole_graph : list op)
    : list chunk :=
  chunk_loop σ (Z.of_nat (length whole_graph)) 0%Z whole_graph [] [] [].

(** Operation descriptors of a chunk sequence, in transport order. *)
Definition chunk_ops (cs : list chunk) : list PbOp := concat (fst <$> cs).
End Serializer.

(** ** The declaration of a computation *)

(** What [computation_op.returns] can be, as [isinstance] sees it.  The
    lists are the iteration order of the container. *)
Inductive returns_decl :=
| RetOp (o : op)                       (* a single Op *)
| RetSequence (l : list op)            (* list or tuple *)
| RetOrderedSet (l : list op)
| RetSet (l : list op)                 (* set or frozenset *)
| RetOther (elems : option (list op)). (* None, or a container that is
                                          neither Sequence nor Set *)

Record ComputationOp := {
  co_returns : returns_decl;
  co_parameters : list op
}.

(** ** The HeTr transformer *)

Record HetrTransformer := {
  default_device : string;
  my_pid : Z;
  is_closed : bool;
  (** keys of the [child_transformers] dictionary, in iteration order;
      the values are the RPC clients, seen through the event log *)
  child_transformers : list string;
  send_nodes : list op
}.

(** [HetrTransformer.__init__], lines 200-213: the state of a new
    transformer; [getpid] is what [os.getpid()] answers in the constructing
    process.  The passes and the launcher are collaborators. *)
Definition HetrTransformer_init (device : string) (getpid : Z)
    : HetrTransformer :=
  {| default_device := device;
     my_pid := getpid;
     is_closed := false;
     child_transformers := [];
     send_nodes := [] |}.

(** [transformer], lines 249-251: the client registered under [tname]; a
    client is known by the name it was created with.  An unregistered name
    fails the assertion. *)
Definition transformer (self : HetrTransformer) (tname : string)
    : option string :=
  if bool_decide (tname ∈ child_transformers self) then Some tname else None.

(** A child computation as the build leaves it: [comp.param_idx] and
    [comp.returns]. *)
Record ChildComputation := {
  param_idx : list nat;
  cc_returns : gmap op nat
}.

Record HetrComputation := {
  (** the [child_computations] dictionary as the list of its items in
      iteration order, which is the order of insertion here *)
  child_computations : list (string * ChildComputation);
  hc_returns : list op;
  computation_op : ComputationOp
}.

(** [k in d] *)
Definition has_key (m : gmap string mval) (k : string) : bool :=
  match m !! k with
  | Some _ => true
  | None => false
  end.

(** [enumerate(l)] *)
Fixpoint enumerate_from {A} (i : nat) (l : list A) : list (nat * A) :=
  match l with
  | [] => []
  | x :: l' => (i, x) :: enumerate_from (S i) l'
  end.

Definition enumerate {A} (l : list A) : list (nat * A) := enumerate_from 0 l.

(** [s[n:]] *)
Fixpoint str_drop (n : nat) (s : string) : string :=
  match n, s with
  | O, _ => s
  | S n', String _ s' => str_drop n' s'
  | S _, EmptyString => EmptyString
  end.

(** [name in l] for a list or tuple [l] of metadata values. *)
Definition str_in_list (name : string) (l : list mval) : bool :=
  existsb (λ v, match v with MStr s => String.eqb name s | _ => false end) l.

(** Lines 109-111.  [op.metadata['transformer']] is a worker name or a
    list of worker names; a missing key or a value that is neither raises. *)
Definition is_my_op (σ : heap) (o : op) (name : string) : option bool :=
  match metadata σ o !! "transformer" with
  | Some (MStr op_trans) =>
      Some (String.eqb name op_trans || str_contains name op_trans)
  | Some (MList op_trans) | Some (MTuple op_trans) =>
      Some (str_in_list name op_trans)
  | _ => None
  end.

(** [[x for x in xs if is_my_op(key(x), name)]] *)
Fixpoint filter_my {A} (σ : heap) (name : string) (key : A → op)
    (xs : list A) : option (list A) :=
  match xs with
  | [] => Some []
  | x :: xs' =>
      b ← is_my_op σ (key x) name;
      rest ← filter_my σ name key xs';
      Some (if b : bool then x :: rest else rest)
  end.

(** Lines 70-74: [self.returns]. *)
Definition init_returns (r : returns_decl) : list op :=
  match r with
  | RetSequence l | RetOrderedSet l | RetSet l | RetOther (Some l) =>
      oset_update [] l
  | RetOp o => oset_update [] [o]
  | RetOther None => []
  end.

(** ['device_id' in op.metadata and
     isinstance(op.metadata['device_id'], (list, tuple))] *)
Definition is_split (σ : heap) (o : op) : bool :=
  match metadata σ o !! "device_id" with
  | Some v => is_list_or_tuple v
  | None => false
  end.

(** [ResultOp(device_id=d, args=a)]: a new object, distinct from every
    object of the arena, that keeps its arguments and its device id. *)
Definition new_ResultOp (device_id : Z) (args : list op) (σ : heap)
    : op * heap :=
  let r := fresh (dom σ) in
  (r, <[r := Node ResultOp args [] {["device_id" := MInt device_id]}]> σ).

(** Lines 80-88: one turn of the loop over [self.returns]. *)
Definition wrap_step (acc : heap * list op) (o : op) : heap * list op :=
  let '(σ, new_returns) := acc in
  if is_split σ o then
    let σ := set_metadata o "is_split_op" (MBool true) σ in
    let '(new_result, σ) := new_ResultOp 0 [o] σ in
    let σ := set_metadata o "hetr_replaced_by" (MOp new_result) σ in
    let σ := set_metadata new_result "replaces_op" (MOp o) σ in
    (σ, oset_add new_returns new_result)
  else (σ, oset_add new_returns o).

(** The node of the wrapper made for [r], and the node of a return once it
    is wrapped by [n], as the loop leaves them. *)
Definition wrapper_node (r : op) : node :=
  Node ResultOp [r] [] (<["replaces_op" := MOp r]> {["device_id" := MInt 0]}).

Definition wrapped_node (n : op) (nd : node) : node :=
  Node (node_class nd) (node_args nd) (node_states_read nd)
       (<["hetr_replaced_by" := MOp n]>
          (<["is_split_op" := MBool true]> (node_metadata nd))).

(** Lines 78-88. *)
Definition wrap_returns (σ : heap) (returns : list op) : heap * list op :=
  foldl wrap_step (σ, []) returns.

(** A loop whose body may raise. *)
Fixpoint foldl_opt {A B} (f : A → B → option A) (a : A) (l : list B)
    : option A :=
  match l with
  | [] => Some a
  | x :: l' => a' ← f a x; foldl_opt f a' l'
  end.

(** Lines 98-100: [p.metadata.update(p.states_read[0].metadata)] for a
    [TensorValueOp] parameter. *)
Definition tensor_value_hack (σ : heap) (p : op) : option heap :=
  match σ !! p with
  | Some n =>
      match node_class n with
      | TensorValueOp =>
          s ← node_states_read n !! 0%nat;
          Some (<[p := Node (node_class n) (node_args n) (node_states_read n)
                            (metadata σ s ∪ node_metadata n)]> σ)
      | _ => Some σ
      end
  | None => Some σ
  end.

Definition tensor_value_hacks (σ : heap) (ps : list op) : option heap :=
  foldl_opt tensor_value_hack σ ps.

(** [o.args[0] if isinstance(o, ResultOp) else o] *)
Definition transform_op (σ : heap) (o : op) : option op :=
  match class_of σ o with
  | Some ResultOp => args_of σ o !! 0%nat
  | _ => Some o
  end.

(** Lines 153-157: one turn of the loop that fills [comp.returns].
    ['replaces_op'] is only ever written with an Op. *)
Definition comp_returns_step (σ : heap) (self_returns : list op)
    (acc : gmap op nat) (io : nat * op) : gmap op nat :=
  let '(i, o) := io in
  if bool_decide (o ∈ self_returns)
     && negb (has_key (metadata σ o) "hetr_replaced_by")
  then <[o := i]> acc
  else match metadata σ o !! "replaces_op" with
       | Some (MOp r) =>
           if bool_decide (r ∈ self_returns) then <[r := i]> acc else acc
       | _ => acc
       end.

(** Lines 152-157. *)
Definition comp_returns (σ : heap) (self_returns t_returns : list op)
    : gmap op nat :=
  foldl (comp_returns_step σ self_returns) ∅ (enumerate t_returns).

(** The key under which the loop of lines 153-157 records an entry of
    [t_returns], if it records it. *)
Definition return_key (σ : heap) (self_returns : list op) (o : op)
    : option op :=
  if bool_decide (o ∈ self_returns)
     && negb (has_key (metadata σ o) "hetr_replaced_by")
  then Some o
  else match metadata σ o !! "replaces_op" with
       | Some (MOp r) => if bool_decide (r ∈ self_returns) then Some r else None
       | _ => None
       end.

(** The caller-visible nodes the children report, all workers together. *)
Definition returned_keys (comp : HetrComputation) : gset op :=
  ⋃ ((λ tc, dom (cc_returns tc.2)) <$> child_computations comp).

(** [n] is a gather wrapper made for [r]: a new [ResultOp] whose only
    argument is [r], with the two references in place. *)
Definition gather_wrapper (σ σ' : heap) (r n : op) : Prop :=
  (n ∉ dom σ) ∧
  class_of σ' n = Some ResultOp ∧
  args_of σ' n = [r] ∧
  metadata σ' r !! "hetr_replaced_by" = Some (MOp n) ∧
  metadata σ' n !! "replaces_op" = Some (MOp r).

(** The references between the requested returns and [new_returns] as
    the wrapping loop installs them: an unwrapped return stands for itself
    and carries no forward reference, a wrapper points back to the return
    it stands for. *)
Definition links_kept (σ : heap) (returns new_returns : list op) : Prop :=
  Forall2 (λ r n,
             (n = r ∧ has_key (metadata σ r) "hetr_replaced_by" = false) ∨
             ((n ∉ returns) ∧ metadata σ n !! "replaces_op" = Some (MOp r)))
          returns new_returns.

(** ** Events: the calls made on the launcher and on the worker clients *)

Section Orchestrator.
Context {PbOp PbEdge Val : Type}.

Inductive event :=
| Launch (num_process ppn : nat)
| SetServerAddress (t_name : string) (dev_id : Z) (num_servers : nat)
| BuildTransformer (t_name : string)
| CreateComputation (t_name : string)
    (pb_whole_graph : list (@chunk PbOp PbEdge))
    (transform_ops placeholders : list op)
| GetComputation (t_name : string)
| FeedInput (t_name : string) (vals : list Val)
| GetResults (t_name : string)
| CloseTransformer (t_name : string)
| CloseClient (t_name : string)
| LauncherClose
| BaseClose
| ImportGPUTransformer
| MakeTransformer (backend : string) (device_id : option Z).

Definition is_launch (e : event) : bool :=
  match e with Launch _ _ => true | _ => false end.

Definition is_make_transformer (e : event) : bool :=
  match e with MakeTransformer _ _ => true | _ => false end.

(** The worker a non-blocking creation request goes to. *)
Definition created_worker (e : event) : option string :=
  match e with CreateComputation t _ _ _ => Some t | _ => None end.

(** The worker a blocking fetch waits for. *)
Definition fetched_worker (e : event) : option string :=
  match e with GetComputation t => Some t | _ => None end.

(** What a feeding request carries. *)
Definition fed_input (e : event) : option (string * list Val) :=
  match e with FeedInput t vals => Some (t, vals) | _ => None end.

Definition collected_worker (e : event) : option string :=
  match e with GetResults t => Some t | _ => None end.

(** The worker whose client is given its server address, with the device
    id the address was asked for. *)
Definition addressed_worker (e : event) : option (string * Z) :=
  match e with SetServerAddress t dev_id _ => Some (t, dev_id) | _ => None end.

(** The chunk sequence a creation request carries. *)
Definition created_graph (e : event) : option (list (@chunk PbOp PbEdge)) :=
  match e with CreateComputation _ pb _ _ => Some pb | _ => None end.

(** Collaborators of the build. *)
Variable op_to_protobuf : heap → op → PbOp.
Variable add_edges : heap → list PbEdge → list PbOp → op → list PbEdge.
(** [Op.all_op_references] *)
Variable all_op_references : heap → list op → list op.
(** [graph_pass.do_pass(ops=...)] for each pass of
    [self.transformer.graph_passes]; a pass may rewrite the graph, grow the
    send set in place and register workers, and it may raise. *)
Variable graph_passes :
  list (list op → heap * HetrTransformer
        → option (heap * HetrTransformer)).
(** [int(s)] on a string. *)
Variable py_int : string → option Z.
(** What the worker behind a client answers to [get_results()] after it
    was fed the given values. *)
Variable worker_results : string → list Val → gmap op Val.

(** Lines 91-94. *)
Definition run_passes (pass_ops : list op) (s : heap * HetrTransformer)
    : option (list op * (heap * HetrTransformer)) :=
  foldl_opt
    (λ acc do_pass,
       let pass_ops :=
         oset_union acc.1 (oset_update [] (send_nodes acc.2.2)) in
       s' ← do_pass pass_ops acc.2;
       Some (pass_ops, s'))
    (pass_ops, s) graph_passes.

(** [register_transformer], lines 229-238: a name with neither ['cpu']
    nor ['gpu'] in it leaves [trans_client] unbound, and a name whose
    tail is no integer makes [int] raise. *)
Definition register_transformer (self : HetrTransformer) (tname : string)
    : option HetrTransformer :=
  if bool_decide (tname ∈ child_transformers self) then Some self
  else if str_contains "cpu" tname || str_contains "gpu" tname then
    _ ← py_int (str_drop 3 tname);
    Some {| default_device := default_device self;
            my_pid := my_pid self;
            is_closed := is_closed self;
            child_transformers := child_transformers self ++ [tname];
            send_nodes := send_nodes self |}
  else None.

(** [setup_child_transformers], lines 240-247. *)
Definition setup_child_transformers (hetr : HetrTransformer)
    (num_servers : nat) : option (list event) :=
  mapM (λ tname, dev_id ← py_int (str_drop 3 tname);
                 Some (SetServerAddress tname dev_id num_servers))
       (child_transformers hetr).

(** Lines 139-144: the requests of the first loop over the workers. *)
Definition create_requests (σ : heap) (pb_whole_graph : list chunk)
    (t_returns t_placeholders : string → option (list op))
    (t_name : string) : option (list event) :=
  rs ← t_returns t_name;
  ps ← t_placeholders t_name;
  transform_ops ← mapM (transform_op σ) rs;
  Some [BuildTransformer t_name;
        CreateComputation t_name pb_whole_graph transform_ops ps].

(** Lines 146-158: one turn of the second loop over the workers. *)
Definition get_computation (σ : heap) (self_returns parameters : list op)
    (t_returns : string → option (list op)) (t_name : string)
    : option (list event * (string * ChildComputation)) :=
  idx ← filter_my σ t_name snd (enumerate parameters);
  rs ← t_returns t_name;
  Some ([GetComputation t_name],
        (t_name, {| param_idx := idx.*1;
                    cc_returns := comp_returns σ self_returns rs |})).

(** [HetrComputation.__init__], lines 63-100: the returns are wrapped, the
    passes run and the parameters are patched.  Yields the arena, the
    transformer and [new_returns]. *)
Definition prepare_graph (hetr : HetrTransformer) (σ : heap)
    (c : ComputationOp) : option (heap * HetrTransformer * list op) :=
  let returns := init_returns (co_returns c) in
  let '(σ, new_returns) := wrap_returns σ returns in
  let pass_ops := oset_union new_returns (oset_update [] (co_parameters c)) in
  '(_, (σ, hetr)) ← run_passes pass_ops (σ, hetr);
  σ ← tensor_value_hacks σ (co_parameters c);
  Some (σ, hetr, new_returns).

(** [HetrComputation.__init__], lines 102-159: launch, serialization,
    split per worker, creation and fetch.  Yields the computation and
    the event log. *)
Definition distribute (hetr : HetrTransformer) (σ : heap)
    (log : list event) (c : ComputationOp) (new_returns : list op)
    : option (HetrComputation * list event) :=
  let returns := init_returns (co_returns c) in
  let num_process := length (child_transformers hetr) in
  let ppn :=
    if String.eqb (default_device hetr) "cpu" then 1%nat else num_process in
  setup ← setup_child_transformers hetr num_process;
  let placeholders := co_parameters c in
  let all_returns := oset_union (send_nodes hetr) new_returns in
  transform_returns ← mapM (transform_op σ) all_returns;
  let whole_graph := all_op_references σ (transform_returns ++ placeholders) in
  let pb_whole_graph :=
    serialize_whole_graph op_to_protobuf add_edges σ whole_graph in
  let t_placeholders t_name := filter_my σ t_name id placeholders in
  let t_returns t_name := filter_my σ t_name id all_returns in
  _ ← mapM t_placeholders (child_transformers hetr);
  _ ← mapM t_returns (child_transformers hetr);
  creates ← mapM (create_requests σ pb_whole_graph t_returns t_placeholders)
                 (child_transformers hetr);
  gets ← mapM (get_computation σ returns (co_parameters c) t_returns)
              (child_transformers hetr);
  Some ({| child_computations := gets.*2;
           hc_returns := returns;
           computation_op := c |},
        log ++ [Launch num_process ppn] ++ setup
            ++ concat creates ++ concat (gets.*1)).

(** [HetrComputation.__init__], lines 63-159.  The result is the new
    computation with the transformer, the arena and the event log as the
    build leaves them. *)
Definition HetrComputation_init (hetr : HetrTransformer) (σ : heap)
    (log : list event) (c : ComputationOp)
    : option (HetrComputation * HetrTransformer * heap * list event) :=
  '(σ, hetr, new_returns) ← prepare_graph hetr σ c;
  '(comp, log) ← distribute hetr σ log c new_returns;
  Some (comp, hetr, σ, log).

(** [make_computation] and [add_computation], lines 253-269. *)
Definition make_computation (hetr : HetrTransformer) (σ : heap)
    (log : list event) (computation : ComputationOp) :=
  HetrComputation_init hetr σ log computation.

Definition add_computation (hetr : HetrTransformer) (σ : heap)
    (log : list event) (computation : ComputationOp) :=
  make_computation hetr σ log computation.

(** ** Invocation *)

Inductive result :=
| RValue (v : Val)
| RTuple (vs : list Val)
| RDict (return_vals : gmap op Val)
| RNone.

(** Line 171: the values fed to one child; an index out of range raises. *)
Definition feed_values (args : list Val) (child : ChildComputation)
    : option (list Val) :=
  mapM (λ i, args !! i) (param_idx child).

(** Lines 170-171: what each child is fed, in the order of
    [itervalues(self.child_computations)]. *)
Definition feed_all (args : list Val)
    (children : list (string * ChildComputation))
    : option (list (string * list Val)) :=
  mapM (λ tc, vals ← feed_values args tc.2; Some (tc.1, vals)) children.

(** Lines 173-175: [return_vals.update(child.get_results())] over the
    children. *)
Definition merge_results (fed : list (string * list Val)) : gmap op Val :=
  foldl (λ return_vals tv, worker_results tv.1 tv.2 ∪ return_vals) ∅ fed.

(** [HetrComputation.__call__], lines 161-183, on the unpacked
    arguments.  Returns the requests made and the value returned. *)
Definition HetrComputation_call (self : HetrComputation) (args : list Val)
    : option (list event * result) :=
  fed ← feed_all args (child_computations self);
  let return_vals := merge_results fed in
  let log := (λ tv, FeedInput tv.1 tv.2) <$> fed in
  let log := log ++ (GetResults <$> fed.*1) in
  match co_returns (computation_op self) with
  | RetOp o => v ← return_vals !! o; Some (log, RValue v)
  | RetSequence l | RetOrderedSet l =>
      vs ← mapM (λ o, return_vals !! o) l; Some (log, RTuple vs)
  | RetSet _ => Some (log, RDict return_vals)
  | RetOther _ => Some (log, RNone)
  end.

(** ** Closing the transformer *)

(** [HetrTransformer.close], lines 215-227; [getpid] is what
    [os.getpid()] answers in the calling process. *)
Definition close (getpid : Z) (s : HetrTransformer * list event)
    : HetrTransformer * list event :=
  let '(self, log) := s in
  if is_closed self then s
  else if negb (my_pid self =? getpid)%Z then s
  else
    ({| default_device := default_device self;
        my_pid := my_pid self;
        is_closed := true;
        child_transformers := child_transformers self;
        send_nodes := send_nodes self |},
     log ++ (CloseTransformer <$> child_transformers self)
         ++ (CloseClient <$> child_transformers self)
         ++ [LauncherClose; BaseClose]).

(** ** Building a local transformer *)

(** The transformer a factory hands back. *)
Record LocalTransformer := {
  lt_backend : string;
  lt_device_id : option Z
}.

(** [build_transformer(name, comm)], lines 37-55.  [gpu_importable] tells
    whether importing [ngraph.transformers.gputransform] succeeds; [comm]
    is the rank [comm.Get_rank()] answers, [None] when [comm] is [None].
    The second component is [None] when the call raises. *)
Definition build_transformer (gpu_importable : bool) (name : string)
    (comm : option Z) : list event * option LocalTransformer :=
  if str_contains "cpu" name then
    ([MakeTransformer "cpu" None],
     Some {| lt_backend := "cpu"; lt_device_id := None |})
  else if str_contains "gpu" name then
    if gpu_importable then
      match comm with
      | Some rank =>
          ([ImportGPUTransformer; MakeTransformer "gpu" (Some rank)],
           Some {| lt_backend := "gpu"; lt_device_id := Some rank |})
      | None => ([ImportGPUTransformer], None)
      end
    else ([ImportGPUTransformer], None)
  else ([], None).
End Orchestrator.

Arguments event : clear implicits.
Arguments result : clear implicits.

(** ** A worked example: one graph on two cpu workers

    Parameter [1] is read on both devices, parameter [2] on the second;
    return [3] is split over both devices and return [4] lives on the
    second.  The collaborators are stand-ins that are just enough to run
    the build and a call. *)

Definition ex_node (args : list op) (device_id : mval) : node :=
  Node OtherOp args [] {["device_id" := device_id]}.

Definition ex_heap : heap :=
  {[ 1%nat := ex_node [] (MList [MStr "0"; MStr "1"]);
     2%nat := ex_node [] (MStr "1");
     3%nat := ex_node [1%nat] (MTuple [MStr "0"; MStr "1"]);
     4%nat := ex_node [1%nat; 2%nat] (MStr "1") ]}.

Definition ex_computation_op : ComputationOp :=
  {| co_returns := RetSequence [3%nat; 4%nat];
     co_parameters := [1%nat; 2%nat] |}.

Definition ex_hetr : HetrTransformer :=
  {| default_device := "cpu"; my_pid := 1; is_closed := false;
     child_transformers := []; send_nodes := [] |}.

Definition ex_int (s : string) : option Z :=
  if String.eqb s "0" then Some 0%Z
  else if String.eqb s "1" then Some 1%Z
  else None.

(** The worker name of a device id of the example. *)
Definition ex_worker (device_id : mval) : option string :=
  match device_id with
  | MStr d => Some (String.append "cpu" d)
  | MInt z => Some (if (z =? 0)%Z then "cpu0" else "cpu1")
  | _ => None
  end.

(** A stand-in for the device assignment pass: every operation it is
    given gets its ['transformer'] from its ['device_id'], and the workers
    named are registered. *)
Definition ex_assign (s : heap * HetrTransformer) (o : op)
    : option (heap * HetrTransformer) :=
  match default (MStr "0") (metadata s.1 o !! "device_id") with
  | MList l | MTuple l =>
      names ← mapM ex_worker l;
      hetr ← foldl_opt (register_transformer ex_int) s.2 names;
      Some (set_metadata o "transformer" (MList (MStr <$> names)) s.1, hetr)
  | device_id =>
      name ← ex_worker device_id;
      hetr ← register_transformer ex_int s.2 name;
      Some (set_metadata o "transformer" (MStr name) s.1, hetr)
  end.

Definition ex_passes
    : list (list op → heap * HetrTransformer
            → option (heap * HetrTransformer)) :=
  [λ ops s, foldl_opt ex_assign s ops].

Definition ex_add_edges (σ : heap) (pb_edges : list (nat * nat))
    (pb_ops : list nat) (o : op) : list (nat * nat) :=
  pb_edges ++ ((λ a, (o, a)) <$> args_of σ o).

Abbreviation ex_event := (event nat (nat * nat) Z).

Definition ex_build
    : option (HetrComputation * HetrTransformer * heap * list ex_event) :=
  HetrComputation_init (λ _ o, o) ex_add_edges (λ _ roots, roots)
    ex_passes ex_int ex_hetr ex_heap [] ex_computation_op.

Definition ex_comp : HetrComputation :=
  match ex_build with
  | Some b => b.1.1.1
  | None => {| child_computations := []; hc_returns := [];
               computation_op := ex_computation_op |}
  end.

Definition ex_hetr' : HetrTransformer :=
  match ex_build with Some b => b.1.1.2 | None => ex_hetr end.

Definition ex_heap' : heap :=
  match ex_build with Some b => b.1.2 | None => ex_heap end.

Definition ex_log' : list ex_event :=
  match ex_build with Some b => b.2 | None => [] end.

(** The same children under a declaration without returns. *)
Definition ex_comp_none : HetrComputation :=
  {| child_computations := child_computations ex_comp;
     hc_returns := [];
     computation_op := {| co_returns := RetOther None;
                          co_parameters := [1%nat; 2%nat] |} |}.

(** What the two workers of the example answer. *)
Definition ex_worker_results (t_name : string) (vals : list Z)
    : gmap op Z :=
  if String.eqb t_name "cpu0" then {[ 3%nat := foldr Z.add 0%Z vals ]}
  else {[ 4%nat := foldr Z.mul 1%Z vals ]}.

(** The same children under a declaration whose return no worker
    reports. *)
Definition ex_comp_missing : HetrComputation :=
  {| child_computations := child_computations ex_comp;
     hc_returns := [9%nat];
     computation_op := {| co_returns := RetOp 9%nat;
                          co_parameters := [1%nat; 2%nat] |} |}.

(** Registries: one worker, and two workers. *)
Definition ex_registered : HetrTransformer :=
  {| default_device := "cpu"; my_pid := 1; is_closed := false;
     child_transformers := ["cpu0"]; send_nodes := [] |}.

Definition ex_registered2 : HetrTransformer :=
  {| default_device := "cpu"; my_pid := 1; is_closed := false;
     child_transformers := ["cpu0"; "cpu1"]; send_nodes := [] |}.

(** An operation placed on the tenth cpu. *)
Definition ex_heap10 : heap :=
  {[ 1%nat := Node OtherOp [] [] {["transformer" := MStr "cpu10"]} ]}.

(** A [TensorValueOp] parameter [1] that reads the tensor [2]. *)
Definition ex_tv_heap : heap :=
  {[ 1%nat := Node TensorValueOp [] [2%nat] ∅;
     2%nat := Node OtherOp [] [] {["transformer" := MStr "cpu1"]} ]}.

Definition ex_tv_patched : heap :=
  match tensor_value_hack ex_tv_heap 1%nat with
  | Some σ => σ
  | None => ex_tv_heap
  end.

















(** * Properties *)

(** ** Strings *)

Example str_contains_ex :
  str_contains "cpu" "cpu0" = true ∧ str_contains "cpu1" "cpu10" = true ∧
  str_contains "gpu" "cpu0" = false ∧ str_contains "" "" = true.
Proof. repeat split; reflexivity. Qed.

(** ** The serializer *)

Section SerializerFacts.
Context {PbOp PbEdge : Type}.
Variable op_to_protobuf : heap → op → PbOp.
Variable add_edges : heap → list PbEdge → list PbOp → op → list PbEdge.
Variable σ : heap.

Abbreviation chunk_loop := (chunk_loop op_to_protobuf add_edges σ).
Abbreviation serialize := (serialize_whole_graph op_to_protobuf add_edges σ).

Lemma chunk_loop_cons len i o todo pb_ops pb_edges acc :
  chunk_loop len i (o :: todo) pb_ops pb_edges acc
  = let pb_ops := pb_ops ++ [op_to_protobuf σ o] in
    let pb_edges := add_edges σ pb_edges pb_ops o in
    if (negb (i =? 0) && (i mod _OPS_PER_MSG =? 0) || (i =? len - 1))%Z
    then chunk_loop len (i + 1)%Z todo [] [] (acc ++ [(pb_ops, pb_edges)])
    else chunk_loop len (i + 1)%Z todo pb_ops pb_edges acc.
Proof. reflexivity. Qed.

(** Every descriptor ends up in a chunk as long as the last index is
    the one that flushes. *)
Lemma chunk_loop_ops len i todo pb_ops pb_edges acc :
  (i + Z.of_nat (length todo) = len)%Z →
  todo ≠ [] ∨ pb_ops = [] →
  chunk_ops (chunk_loop len i todo pb_ops pb_edges acc)
  = chunk_ops acc ++ pb_ops ++ (op_to_protobuf σ <$> todo).
Proof.
  revert i pb_ops pb_edges acc.
  induction todo as [|o todo IH]; intros i pb_ops pb_edges acc Hlen Hne.
  - destruct Hne as [?| ->]; [done|]. by rewrite /= !app_nil_r.
  - cbn [chunk_loop]. cbn [length] in Hlen.
    destruct (negb (i =? 0)%Z && (i mod _OPS_PER_MSG =? 0)%Z
              || (i =? len - 1)%Z) eqn:Hflush.
    + rewrite IH; [|lia|by right].
      rewrite /chunk_ops fmap_app concat_app /= !app_nil_r.
      by rewrite -!app_assoc.
    + rewrite IH; [by rewrite -!app_assoc|lia|].
      left. intros ->. cbn [length] in Hlen.
      apply orb_false_iff in Hflush as [_ Hlast].
      apply Z.eqb_neq in Hlast. lia.
Qed.

(** Concatenating the chunks gives the descriptors back in the order of
    the whole graph. *)
Lemma serialize_chunk_ops whole_graph :
  chunk_ops (serialize_whole_graph op_to_protobuf add_edges σ whole_graph)
  = op_to_protobuf σ <$> whole_graph.
Proof.
  rewrite /serialize_whole_graph chunk_loop_ops; [done|lia|by right].
Qed.

(** Number of chunks closed from index [i ≥ 1] on. *)
Lemma chunk_loop_length len i todo pb_ops pb_edges acc :
  (1 ≤ i)%Z → (i + Z.of_nat (length todo) = len)%Z → todo ≠ [] →
  Z.of_nat (length (chunk_loop len i todo pb_ops pb_edges acc))
  = (Z.of_nat (length acc) + 1 + (len - 2) / 10 - (i - 1) / 10)%Z.
Proof.
  revert i pb_ops pb_edges acc.
  induction todo as [|o todo IH]; intros i pb_ops pb_edges acc Hi Hlen Hne;
    [done|].
  cbn [chunk_loop]. cbn [length] in Hlen. unfold _OPS_PER_MSG.
  destruct todo as [|o' todo].
  - cbn [length] in Hlen.
    replace (i =? len - 1)%Z with true by (symmetry; apply Z.eqb_eq; lia).
    rewrite orb_true_r /= length_app /=.
    replace (len - 2)%Z with (i - 1)%Z by lia. lia.
  - replace (i =? len - 1)%Z with false
      by (symmetry; apply Z.eqb_neq; cbn [length] in Hlen; lia).
    rewrite orb_false_r.
    replace (i =? 0)%Z with false by (symmetry; apply Z.eqb_neq; lia).
    cbn [negb andb].
    destruct (i mod 10 =? 0)%Z eqn:Hmod.
    + apply Z.eqb_eq in Hmod.
      rewrite IH; [|lia|lia|done]. rewrite length_app /=.
      replace (i + 1 - 1)%Z with i by lia. Z.div_mod_to_equations. lia.
    + apply Z.eqb_neq in Hmod.
      rewrite IH; [|lia|lia|done].
      replace (i + 1 - 1)%Z with i by lia. Z.div_mod_to_equations. lia.
Qed.

(** The number of chunks of a graph of [N] nodes: none for no node, and
    otherwise one chunk for the first eleven nodes and one for every ten
    nodes (or part of ten) after them. *)
Lemma serialize_length whole_graph :
  let N := Z.of_nat (length whole_graph) in
  Z.of_nat (length (serialize_whole_graph op_to_protobuf add_edges σ
                      whole_graph))
  = if (N =? 0)%Z then 0%Z else Z.max 1 ((N + 8) / 10).
Proof.
  unfold serialize_whole_graph.
  destruct whole_graph as [|o ws]; [done|].
  destruct (decide (ws = [])) as [->|Hws]; [done|].
  rewrite chunk_loop_cons. unfold _OPS_PER_MSG.
  assert (length ws ≠ 0%nat) by by destruct ws.
  replace (0 =? _ - 1)%Z with false
    by (symmetry; apply Z.eqb_neq; cbn [length]; lia).
  cbn [Z.eqb negb andb orb].
  rewrite chunk_loop_length; [|lia|cbn [length]; lia|done].
  cbn [length].
  replace (Z.of_nat (S (length ws)) =? 0)%Z with false
    by (symmetry; apply Z.eqb_neq; lia).
  change (Z.of_nat 0) with 0%Z. Z.div_mod_to_equations. lia.
Qed.

(** The chunks closed so far are never touched again. *)
Lemma chunk_loop_acc len i todo pb_ops pb_edges acc :
  ∃ rest, chunk_loop len i todo pb_ops pb_edges acc = acc ++ rest.
Proof.
  revert i pb_ops pb_edges acc.
  induction todo as [|o todo IH]; intros i pb_ops pb_edges acc.
  - exists []. by rewrite app_nil_r.
  - rewrite chunk_loop_cons /=. case_match.
    + edestruct IH as [rest ->]. eexists. by rewrite -app_assoc.
    + apply IH.
Qed.

(** Below index ten nothing is flushed unless the graph ends. *)
Lemma chunk_loop_fill len i o todo pb_ops pb_edges acc :
  (0 ≤ i < 10)%Z → (i < len - 1)%Z →
  chunk_loop len i (o :: todo) pb_ops pb_edges acc
  = chunk_loop len (i + 1)%Z todo (pb_ops ++ [op_to_protobuf σ o])
      (add_edges σ pb_edges (pb_ops ++ [op_to_protobuf σ o]) o) acc.
Proof.
  intros Hi Hlen. rewrite chunk_loop_cons /=. unfold _OPS_PER_MSG.
  replace (i =? len - 1)%Z with false by (symmetry; apply Z.eqb_neq; lia).
  destruct (decide (i = 0%Z)) as [->|Hi0]; [done|].
  replace (i mod 10 =? 0)%Z with false; [by rewrite andb_false_r|].
  symmetry; apply Z.eqb_neq. rewrite Z.mod_small; lia.
Qed.

(** A graph of eleven nodes or more has eleven descriptors in its first
    chunk. *)
Lemma serialize_first_chunk whole_graph :
  (11 ≤ length whole_graph)%nat →
  ∃ c, serialize_whole_graph op_to_protobuf add_edges σ whole_graph !! 0%nat
       = Some c ∧ length c.1 = 11%nat.
Proof.
  intros Hlen. unfold serialize_whole_graph.
  set (len := Z.of_nat (length whole_graph)).
  assert (11 ≤ len)%Z as Hlen' by lia. clearbody len.
  do 11 (destruct whole_graph as [|? whole_graph]; [simpl in Hlen; lia|]).
  do 10 (rewrite chunk_loop_fill; [|lia|lia]; cbn [Z.add Pos.add Pos.succ]).
  rewrite chunk_loop_cons /=.
  edestruct chunk_loop_acc as [rest ->]. eauto.
Qed.

(** C1: a whole graph of eleven nodes is serialized into one chunk, not
    the two that ⌈11/10⌉ asks for; the chunk carries the eleven
    descriptors in graph order. *)
Theorem serialize_eleven_nodes_single_chunk :
  length (serialize_whole_graph op_to_protobuf add_edges σ (seq 0 11))
  = 1%nat ∧
  chunk_ops (serialize_whole_graph op_to_protobuf add_edges σ (seq 0 11))
  = op_to_protobuf σ <$> seq 0 11.
Proof. split; reflexivity. Qed.

(** C2: the only chunk of a whole graph of eleven nodes holds eleven
    operation descriptors, one more than the cap of ten. *)
Theorem serialize_eleven_nodes_chunk_size :
  (length ∘ fst) <$>
    serialize_whole_graph op_to_protobuf add_edges σ (seq 0 11)
  = [11%nat].
Proof. reflexivity. Qed.
End SerializerFacts.

Example chunk_sizes_25 :
  (length ∘ fst) <$>
    serialize_whole_graph (λ _ o, o) (λ _ e _ o, e ++ [o]) ∅ (seq 0 25)
  = [11; 10; 4]%nat.
Proof. vm_compute. reflexivity. Qed.

(** ** Closing the transformer *)

Section CloseFacts.
Context {PbOp PbEdge Val : Type}.
Implicit Types (s : HetrTransformer * list (event PbOp PbEdge Val)).

(** The owner's first [close] asks every child to close its transformer,
    then closes every client, then the launcher, and sets the flag. *)
Lemma close_owner s :
  is_closed s.1 = false →
  (close (my_pid s.1) s).2
  = s.2 ++ (CloseTransformer <$> child_transformers s.1)
        ++ (CloseClient <$> child_transformers s.1)
        ++ [LauncherClose; BaseClose]
  ∧ is_closed (close (my_pid s.1) s).1 = true.
Proof.
  destruct s as [self log]; simpl; intros ->. by rewrite Z.eqb_refl.
Qed.

Lemma close_closed getpid s : is_closed s.1 = true → close getpid s = s.
Proof. destruct s as [self log]; simpl. by intros ->. Qed.

Lemma close_foreign getpid s : my_pid s.1 ≠ getpid → close getpid s = s.
Proof.
  destruct s as [self log]; simpl; intros Hpid.
  destruct (is_closed self); [done|].
  by apply Z.eqb_neq in Hpid as ->.
Qed.

(** C5: a second [close] changes nothing, and a [close] from a process
    whose pid is not the recorded one changes nothing at all: the flag
    stays as it was and no request reaches a child or the launcher. *)
Theorem close_idempotent_owner_only getpid s :
  close getpid (close getpid s) = close getpid s ∧
  (my_pid s.1 ≠ getpid →
     close getpid s = s ∧
     (is_closed s.1 = false → is_closed (close getpid s).1 = false) ∧
     (close getpid s).2 = s.2).
Proof.
  split.
  - destruct s as [self log]; simpl.
    destruct (is_closed self) eqn:Hc; [by rewrite /= Hc|].
    destruct (my_pid self =? getpid)%Z eqn:Hpid; [done|].
    by rewrite /= Hc Hpid.
  - intros Hpid. by rewrite close_foreign.
Qed.
End CloseFacts.

(** ** Building a local transformer *)

Section BuildTransformerFacts.
Context {PbOp PbEdge Val : Type}.

Abbreviation build_transformer' :=
  (@build_transformer PbOp PbEdge Val).

(** A name with ['cpu'] in it gets the cpu transformer, whatever else it
    contains. *)
Lemma build_transformer_cpu gpu_importable name comm :
  str_contains "cpu" name = true →
  (build_transformer' gpu_importable name comm).2
  = Some {| lt_backend := "cpu"; lt_device_id := None |}.
Proof. unfold build_transformer. by intros ->. Qed.

(** C9: for a name with neither ['cpu'] nor ['gpu'] in it, and for a name
    sent to the gpu branch (['gpu'] and no ['cpu'] in it) when the GPU
    backend cannot be imported, the call raises: no transformer comes
    back, none was made, and nothing was launched. *)
Theorem build_transformer_unknown_or_unavailable gpu_importable name comm :
  str_contains "cpu" name = false →
  str_contains "gpu" name = false ∨ gpu_importable = false →
  let r := build_transformer' gpu_importable name comm in
  r.2 = None ∧
  existsb is_launch r.1 = false ∧
  existsb is_make_transformer r.1 = false.
Proof.
  intros Hcpu Hgpu. unfold build_transformer. rewrite Hcpu.
  destruct Hgpu as [->| ->]; [done|].
  by destruct (str_contains "gpu" name).
Qed.
End BuildTransformerFacts.

(** ** Invocation *)

Section CallFacts.
Context {PbOp PbEdge Val : Type}.
Variable worker_results : string → list Val → gmap op Val.

Abbreviation call :=
  (@HetrComputation_call PbOp PbEdge Val worker_results).

(** Every child is fed once, in order, with the arguments at its
    recorded indices. *)
Lemma feed_all_Some (args : list Val) children fed :
  feed_all args children = Some fed →
  Forall2 (λ tc tv, tv.1 = tc.1 ∧
             Forall2 (λ i v, args !! i = Some v) (param_idx tc.2) tv.2)
          children fed.
Proof.
  unfold feed_all. rewrite mapM_Some. intros Hfed.
  eapply Forall2_impl; [exact Hfed|].
  intros [t child] [t' vals]; simpl. unfold feed_values.
  destruct (mapM _ _) as [vs|] eqn:Hvs; [|done].
  intros [= <- <-]. split; [done|]. by apply mapM_Some in Hvs.
Qed.

Lemma feed_all_names (args : list Val) children fed :
  feed_all args children = Some fed → fed.*1 = children.*1.
Proof.
  intros Hfed%feed_all_Some.
  induction Hfed as [|tc tv ?? [Heq _]]; [done|]. simpl. by f_equal.
Qed.

(** Feeding cannot raise when every recorded index has an argument. *)
Lemma feed_all_is_Some (args : list Val) children :
  Forall (λ tc, Forall (λ i, i < length args)%nat (param_idx tc.2))
         children →
  is_Some (feed_all args children).
Proof.
  intros Hidx. unfold feed_all. apply mapM_is_Some.
  eapply Forall_impl; [done|]. intros [t child] Hc; simpl in *.
  unfold feed_values.
  assert (is_Some (mapM (λ i, args !! i) (param_idx child))) as [vs ->];
    [|done].
  apply mapM_is_Some. eapply Forall_impl; [done|].
  intros i Hi; simpl. by apply lookup_lt_is_Some.
Qed.

Lemma call_log_feeds (fed : list (string * list Val)) :
  omap fed_input
    ((λ tv, FeedInput tv.1 tv.2) <$> fed : list (event PbOp PbEdge _)) = fed ∧
  omap collected_worker
    ((λ tv, FeedInput tv.1 tv.2) <$> fed : list (event PbOp PbEdge _)) = [].
Proof.
  induction fed as [|[t vals] fed [IH1 IH2]]; [done|].
  simpl. split; [f_equal; exact IH1|exact IH2].
Qed.

Lemma call_log_collects (names : list string) :
  omap fed_input (GetResults <$> names : list (event PbOp PbEdge Val)) = [] ∧
  omap collected_worker (GetResults <$> names : list (event PbOp PbEdge Val))
  = names.
Proof.
  induction names as [|t names [IH1 IH2]]; [done|].
  simpl. split; [exact IH1|f_equal; exact IH2].
Qed.

(** C3: once the children are fed and their results merged, the call
    hands back the value of the single declared node, or the values of
    the declared sequence (or ordered set) in declaration order, or, for
    a declared set, the merged table itself, keyed by node identity. *)
Theorem call_reshapes_result (self : HetrComputation) (args : list Val) fed :
  feed_all args (child_computations self) = Some fed →
  let return_vals := merge_results worker_results fed in
  (∀ o v, co_returns (computation_op self) = RetOp o →
          return_vals !! o = Some v →
          snd <$> call self args = Some (RValue v)) ∧
  (∀ l vs, co_returns (computation_op self) = RetSequence l ∨
           co_returns (computation_op self) = RetOrderedSet l →
           Forall2 (λ o v, return_vals !! o = Some v) l vs →
           snd <$> call self args = Some (RTuple vs)) ∧
  (∀ l, co_returns (computation_op self) = RetSet l →
        snd <$> call self args = Some (RDict return_vals)).
Proof.
  intros Hfed return_vals. unfold HetrComputation_call. rewrite Hfed /=.
  fold return_vals. split_and!.
  - intros o v -> Hv. by rewrite Hv.
  - intros l vs Hl Hvs. apply mapM_Some in Hvs.
    destruct Hl as [-> | ->]; by rewrite Hvs.
  - by intros l ->.
Qed.

(** C10: when the declared returns are neither a node, nor a sequence or
    ordered set, nor a set, and every recorded index has an argument, the
    call feeds every child, collects from every child and returns
    [None]. *)
Theorem call_undeclared_returns_none (self : HetrComputation)
    (args : list Val) elems :
  co_returns (computation_op self) = RetOther elems →
  Forall (λ tc, Forall (λ i, i < length args)%nat (param_idx tc.2))
         (child_computations self) →
  ∃ log, call self args = Some (log, RNone) ∧
         (omap fed_input log).*1 = (child_computations self).*1 ∧
         omap collected_worker log = (child_computations self).*1.
Proof.
  intros Hret Hidx. unfold HetrComputation_call.
  destruct (feed_all_is_Some args _ Hidx) as [fed Hfed].
  rewrite Hfed /= Hret. eexists; split; [done|].
  apply feed_all_names in Hfed as <-.
  rewrite !omap_app.
  destruct (call_log_feeds fed) as [-> ->].
  destruct (call_log_collects fed.*1) as [-> ->].
  by rewrite app_nil_r.
Qed.
End CallFacts.

(** Case analysis on the first step of a computation that may raise. *)
Ltac bind_inv H x E :=
  match type of H with
  | (?m ≫= _) = Some _ =>
      destruct m as [x|] eqn:E; [simpl in H|simpl in H; discriminate H]
  end.

(** ** Ownership filters and enumeration *)

Lemma elem_of_enumerate_from {A} (l : list A) i g x :
  (g, x) ∈ enumerate_from i l ↔ (i ≤ g)%nat ∧ l !! (g - i)%nat = Some x.
Proof.
  revert i. induction l as [|y l IH]; intros i; simpl.
  { rewrite elem_of_nil. naive_solver. }
  rewrite elem_of_cons IH. split.
  - intros [[= -> ->]|[Hle Hx]].
    + by rewrite Nat.sub_diag.
    + split; [lia|]. by replace (g - i)%nat with (S (g - S i)) by lia.
  - intros [Hle Hx]. destruct (decide (g = i)) as [->|Hne].
    + rewrite Nat.sub_diag in Hx. left. by injection Hx as ->.
    + right. split; [lia|].
      by replace (g - i)%nat with (S (g - S i)) in Hx by lia.
Qed.

Lemma elem_of_enumerate {A} (l : list A) g x :
  (g, x) ∈ enumerate l ↔ l !! g = Some x.
Proof.
  unfold enumerate. rewrite elem_of_enumerate_from Nat.sub_0_r.
  split; [naive_solver|]. split; [lia|done].
Qed.


Lemma filter_my_elem_of {A} σ name (key : A → op) xs l x :
  filter_my σ name key xs = Some l →
  x ∈ l ↔ x ∈ xs ∧ is_my_op σ (key x) name = Some true.
Proof.
  revert l. induction xs as [|y xs IH]; intros l; simpl.
  { intros [= <-]. rewrite !elem_of_nil. naive_solver. }
  destruct (is_my_op σ (key y) name) as [b|] eqn:Hb; [simpl|done].
  destruct (filter_my σ name key xs) as [rest|]; [simpl|done].
  intros [= <-]. specialize (IH rest eq_refl).
  destruct b; rewrite ?elem_of_cons IH; naive_solver.
Qed.



Lemma elem_of_concat {A} (x : A) (ls : list (list A)) :
  x ∈ concat ls ↔ ∃ l, l ∈ ls ∧ x ∈ l.
Proof.
  rewrite list_elem_of_In in_concat.
  by setoid_rewrite list_elem_of_In.
Qed.

Lemma omap_cons_None {A B} (f : A → option B) (l : list A) x :
  f x = None → omap f (x :: l) = omap f l.
Proof. intros Hx. simpl. by rewrite Hx. Qed.

Lemma omap_nil_elem_of {A B} (f : A → option B) (l : list A) x :
  omap f l = [] → x ∈ l → f x = None.
Proof.
  induction l as [|y l IH]; simpl; [by intros _ ?%elem_of_nil|].
  destruct (f y) eqn:Hy; [done|].
  intros Hl [->|Hx]%elem_of_cons; [done|]. by apply IH.
Qed.

(** When the first part of a log holds no [g]-event and the second part no
    [f]-event, every [f]-event comes before every [g]-event. *)
Lemma events_ordered {A B C} (f : A → option B) (g : A → option C)
    (pre post : list A) i j e e' :
  omap g pre = [] → omap f post = [] →
  (pre ++ post) !! i = Some e → (pre ++ post) !! j = Some e' →
  is_Some (f e) → is_Some (g e') → (i < j)%nat.
Proof.
  intros Hpre Hpost Hi Hj [x Hx] [y Hy].
  assert (i < length pre)%nat.
  { destruct (decide (i < length pre)%nat); [done|].
    rewrite lookup_app_r in Hi; [|lia].
    apply list_elem_of_lookup_2 in Hi.
    by rewrite (omap_nil_elem_of f post e) in Hx. }
  assert (length pre ≤ j)%nat; [|lia].
  destruct (decide (length pre ≤ j)%nat); [done|].
  rewrite lookup_app_l in Hj; [|lia].
  apply list_elem_of_lookup_2 in Hj.
  by rewrite (omap_nil_elem_of g pre e') in Hy.
Qed.

(** ** The build *)

Section BuildFacts.
Context {PbOp PbEdge Val : Type}.
Variable op_to_protobuf : heap → op → PbOp.
Variable add_edges : heap → list PbEdge → list PbOp → op → list PbEdge.
Variable all_op_references : heap → list op → list op.
Variable graph_passes :
  list (list op → heap * HetrTransformer
        → option (heap * HetrTransformer)).
Variable py_int : string → option Z.

Abbreviation distribute' :=
  (@distribute PbOp PbEdge Val op_to_protobuf add_edges all_op_references
     py_int).
Abbreviation init :=
  (@HetrComputation_init PbOp PbEdge Val op_to_protobuf add_edges
     all_op_references graph_passes py_int).

(** What a successful second half of the build has done. *)
Lemma distribute_Some hetr σ log c new_returns comp log' :
  distribute' hetr σ log c new_returns = Some (comp, log') →
  let workers := child_transformers hetr in
  let returns := init_returns (co_returns c) in
  let all_returns := oset_union (send_nodes hetr) new_returns in
  ∃ setup pb creates gets,
    setup_child_transformers py_int hetr (length workers) = Some setup ∧
    Forall2 (λ t evs, ∃ rs ps tops,
               filter_my σ t id all_returns = Some rs ∧
               filter_my σ t id (co_parameters c) = Some ps ∧
               evs = [BuildTransformer t; CreateComputation t pb tops ps])
            workers creates ∧
    Forall2 (λ t g, ∃ ips rs,
               filter_my σ t snd (enumerate (co_parameters c)) = Some ips ∧
               filter_my σ t id all_returns = Some rs ∧
               g = ([GetComputation t],
                    (t, {| param_idx := ips.*1;
                           cc_returns := comp_returns σ returns rs |})))
            workers gets ∧
    comp = {| child_computations := gets.*2;
              hc_returns := returns;
              computation_op := c |} ∧
    log' = log ++ [Launch (length workers)
                     (if String.eqb (default_device hetr) "cpu"
                      then 1%nat else length workers)]
               ++ setup ++ concat creates ++ concat gets.*1.
Proof.
  intros H workers returns all_returns. unfold distribute in H.
  fold workers returns all_returns in H.
  bind_inv H setup Hsetup. bind_inv H transform_returns Htr.
  bind_inv H tps Htps. bind_inv H trs Htrs.
  bind_inv H creates Hc. bind_inv H gets Hg.
  injection H as <- <-.
  eexists setup, _, creates, gets. split_and!; try done.
  - apply mapM_Some in Hc. eapply Forall2_impl; [exact Hc|].
    intros t evs. unfold create_requests. fold all_returns.
    destruct (filter_my σ t id all_returns) as [rs|]; [|done].
    destruct (filter_my σ t id (co_parameters c)) as [ps|]; [|done].
    simpl. destruct (mapM _ rs) as [tops|]; [|done].
    intros [= <-]. by eexists rs, ps, tops.
  - apply mapM_Some in Hg. eapply Forall2_impl; [exact Hg|].
    intros t g. unfold get_computation. fold all_returns.
    destruct (filter_my σ t snd _) as [ips|]; [|done].
    destruct (filter_my σ t id all_returns) as [rs|]; [|done].
    simpl. intros [= <-]. by eexists ips, rs.
Qed.

Lemma init_Some hetr σ log c comp hetr' σ' log' :
  init hetr σ log c = Some (comp, hetr', σ', log') →
  ∃ new_returns,
    prepare_graph graph_passes hetr σ c = Some (σ', hetr', new_returns) ∧
    distribute' hetr' σ' log c new_returns = Some (comp, log').
Proof.
  unfold HetrComputation_init. intros H.
  bind_inv H p Hp. destruct p as [[σ2 hetr2] new_returns].
  bind_inv H d Hd. destruct d as [comp2 log2].
  injection H as <- <- <- <-. by exists new_returns.
Qed.

Lemma setup_events hetr n setup :
  setup_child_transformers py_int hetr n = Some setup →
  omap created_worker (setup : list (event PbOp PbEdge Val)) = [] ∧
  omap fetched_worker setup = [].
Proof.
  unfold setup_child_transformers. rewrite mapM_Some.
  induction 1 as [|t e ts es He _ [IH1 IH2]]; [done|].
  destruct (py_int _); [|done]. injection He as <-. by simpl.
Qed.

Lemma create_events (workers : list string) creates
    (P : string → list (event PbOp PbEdge Val) → Prop) :
  (∀ t evs, P t evs → ∃ pb tops ps,
      evs = [BuildTransformer t; CreateComputation t pb tops ps]) →
  Forall2 P workers creates →
  omap created_worker (concat creates) = workers ∧
  omap fetched_worker (concat creates) = [].
Proof.
  intros HP. induction 1 as [|t evs ts es He _ [IH1 IH2]]; [done|].
  destruct (HP _ _ He) as (pb & tops & ps & ->). simpl.
  split; [f_equal; exact IH1|exact IH2].
Qed.

Lemma get_events (workers : list string)
    (gets : list (list (event PbOp PbEdge Val) * (string * ChildComputation)))
    (P : string → _ → Prop) :
  (∀ t g, P t g → g.1 = [GetComputation t] ∧ g.2.1 = t) →
  Forall2 P workers gets →
  omap fetched_worker (concat gets.*1) = workers ∧
  omap created_worker (concat gets.*1) = [] ∧
  gets.*2.*1 = workers.
Proof.
  intros HP. induction 1 as [|t g ts gs Hg _ (IH1 & IH2 & IH3)]; [done|].
  destruct (HP _ _ Hg) as [Hg1 Hg2]. destruct g as [evs [t' child]].
  simpl in *. subst. simpl. split_and!; by f_equal.
Qed.

(** The launch is the first thing a build asks for: the requests to the
    workers, [build_transformer] among them, all come after it.  One
    process per node is asked for on cpu, all on one node otherwise. *)
Lemma init_launches_first hetr σ log c comp hetr' σ' log' :
  init hetr σ log c = Some (comp, hetr', σ', log') →
  ∃ rest,
    log' = log ++ Launch (length (child_transformers hetr'))
                    (if String.eqb (default_device hetr') "cpu"
                     then 1%nat else length (child_transformers hetr'))
                  :: rest.
Proof.
  intros (new_returns & _ & Hd)%init_Some.
  apply distribute_Some in Hd as (setup & pb & creates & gets & _ & _ & _ & _ & ->).
  by eexists.
Qed.

(** C7: the build asks every registered worker, in registry order, to
    create its computation, and only then fetches the computations, in
    the same order: every creation request comes before every fetch. *)
Theorem create_requests_before_fetches hetr σ log c comp hetr' σ' log' :
  init hetr σ log c = Some (comp, hetr', σ', log') →
  ∃ added, log' = log ++ added ∧
    omap created_worker added = child_transformers hetr' ∧
    omap fetched_worker added = child_transformers hetr' ∧
    ∀ i j e e', added !! i = Some e → added !! j = Some e' →
      is_Some (created_worker e) → is_Some (fetched_worker e') →
      (i < j)%nat.
Proof.
  intros (new_returns & _ & Hd)%init_Some.
  apply distribute_Some in Hd
    as (setup & pb & creates & gets & Hsetup & Hc & Hg & _ & ->).
  apply setup_events in Hsetup as [Hs1 Hs2].
  apply create_events in Hc as [Hc1 Hc2]; [|naive_solver].
  apply get_events in Hg as (Hg1 & Hg2 & _); [|naive_solver].
  eexists. split; [done|].
  rewrite !omap_app Hs1 Hs2 Hc1 Hc2 Hg1 Hg2 /= app_nil_r.
  split_and!; [done..|].
  intros i j e e'. rewrite (app_assoc setup) app_comm_cons.
  apply events_ordered; [|done].
  rewrite omap_cons_None; [|done]. by rewrite omap_app Hs2 Hc2.
Qed.

End BuildFacts.

(** ** Ordered sets *)

Lemma elem_of_oset_add s x y : y ∈ oset_add s x ↔ y ∈ s ∨ y = x.
Proof.
  unfold oset_add. case_bool_decide.
  - naive_solver.
  - rewrite elem_of_app list_elem_of_singleton. naive_solver.
Qed.

Lemma oset_add_NoDup s x : NoDup s → NoDup (oset_add s x).
Proof.
  unfold oset_add. intros Hs. case_bool_decide; [done|].
  apply NoDup_app. split_and!; [done| |apply NoDup_singleton].
  intros y Hy ->%list_elem_of_singleton. done.
Qed.

Lemma oset_add_new s x : x ∉ s → oset_add s x = s ++ [x].
Proof. unfold oset_add. intros Hx. by rewrite bool_decide_eq_false_2. Qed.

Lemma elem_of_oset_update s xs y : y ∈ oset_update s xs ↔ y ∈ s ∨ y ∈ xs.
Proof.
  unfold oset_update. revert s.
  induction xs as [|x xs IH]; intros s; simpl.
  - rewrite elem_of_nil. naive_solver.
  - rewrite IH elem_of_oset_add elem_of_cons. naive_solver.
Qed.

Lemma oset_update_NoDup s xs : NoDup s → NoDup (oset_update s xs).
Proof.
  unfold oset_update. revert s.
  induction xs as [|x xs IH]; intros s Hs; simpl; [done|].
  by apply IH, oset_add_NoDup.
Qed.

Lemma init_returns_NoDup r : NoDup (init_returns r).
Proof.
  destruct r as [o|l|l|l|[l|]]; cbn [init_returns];
    try apply oset_update_NoDup; apply NoDup_nil_2.
Qed.

(** ** Wrapping the split returns *)

Lemma Forall2_impl_elem_of {A B} (P Q : A → B → Prop) l k :
  Forall2 P l k →
  (∀ x y, x ∈ l → y ∈ k → P x y → Q x y) →
  Forall2 Q l k.
Proof.
  induction 1 as [|x y l k HP _ IH]; intros HPQ; constructor.
  - apply HPQ; [left..|done].
  - apply IH. intros x' y' ??. apply HPQ; by right.
Qed.

Lemma wrap_step_unsplit σ nk r :
  is_split σ r = false → wrap_step (σ, nk) r = (σ, oset_add nk r).
Proof. unfold wrap_step. by intros ->. Qed.

Lemma wrap_step_split σ nk r nd :
  σ !! r = Some nd → is_split σ r = true →
  wrap_step (σ, nk) r
  = (<[fresh (dom σ) := wrapper_node r]>
       (<[r := wrapped_node (fresh (dom σ)) nd]> σ),
     oset_add nk (fresh (dom σ))).
Proof.
  intros Hr Hsplit. unfold wrap_step, new_ResultOp, set_metadata.
  rewrite Hsplit dom_alter_L. f_equal.
  assert (fresh (dom σ) ≠ r) as Hne.
  { intros Heq. pose proof (is_fresh (dom σ)) as Hf.
    rewrite Heq in Hf. apply Hf, elem_of_dom. eauto. }
  set (n := fresh (dom σ)) in *.
  apply map_eq. intros o.
  destruct (decide (o = n)) as [->|Hon].
  { rewrite lookup_alter_eq lookup_alter_ne // !lookup_insert_eq //. }
  rewrite lookup_alter_ne // lookup_insert_ne //.
  destruct (decide (o = r)) as [->|Hor].
  - rewrite lookup_alter_eq lookup_insert_ne // lookup_alter_eq Hr.
    by rewrite lookup_insert_eq.
  - by rewrite lookup_alter_ne // !lookup_insert_ne // lookup_alter_ne.
Qed.

Lemma is_split_lookup σ σ' o : σ' !! o = σ !! o → is_split σ' o = is_split σ o.
Proof. unfold is_split, metadata. by intros ->. Qed.

(** What the loop of lines 78-88 leaves, by induction on the returns
    already seen. *)
Lemma wrap_returns_inv σ returns :
  NoDup returns → (∀ r, r ∈ returns → r ∈ dom σ) →
  let σ' := (wrap_returns σ returns).1 in
  let new_returns := (wrap_returns σ returns).2 in
  dom σ ⊆ dom σ' ∧
  (∀ o, o ∈ dom σ' → o ∈ dom σ ∨ o ∈ new_returns) ∧
  (∀ o, o ∈ new_returns → o ∈ dom σ' ∧ (o ∈ dom σ → o ∈ returns)) ∧
  (∀ o, o ∈ dom σ → o ∉ returns ∨ is_split σ o = false →
        σ' !! o = σ !! o) ∧
  Forall2 (λ r n, if is_split σ r
                  then (n ∉ dom σ) ∧ σ' !! n = Some (wrapper_node r) ∧
                       σ' !! r = wrapped_node n <$> σ !! r
                  else n = r)
          returns new_returns ∧
  NoDup new_returns.
Proof.
  induction returns as [|r done IH] using rev_ind; intros Hnd Hdom.
  { simpl. split_and!; try done; try set_solver; constructor. }
  apply NoDup_app in Hnd as (Hnd & Hr & _).
  assert (r ∉ done) as Hrd by (intros ?; by eapply Hr, list_elem_of_singleton).
  assert (r ∈ dom σ) as Hrσ by (apply Hdom; set_solver).
  destruct IH as (Hsub & Hnew & Hnr & Hsame & Hall & Hndk);
    [done|intros; apply Hdom; set_solver|].
  unfold wrap_returns in *. rewrite foldl_app. cbn [foldl].
  destruct (foldl wrap_step (σ, []) done) as [σk nk]; cbn [fst snd] in *.
  assert (σk !! r = σ !! r) as Hrk by (apply Hsame; auto).
  assert (r ∉ nk) as Hrnk by (intros ?%Hnr; naive_solver).
  destruct (is_split σ r) eqn:Hsplit.
  - apply elem_of_dom in Hrσ as [nd Hnd'].
    rewrite (wrap_step_split _ _ _ nd);
      [|by rewrite Hrk|by rewrite (is_split_lookup σ)].
    cbn [fst snd].
    set (n := fresh (dom σk)).
    assert (n ∉ dom σk) as Hn by apply is_fresh.
    assert (n ∉ nk) as Hnnk by (intros ?%Hnr; naive_solver).
    assert (n ≠ r) as Hnr'.
    { intros ->. apply Hn, elem_of_dom. rewrite Hrk. eauto. }
    rewrite oset_add_new //. split_and!.
    + rewrite !dom_insert_L. set_solver.
    + intros o. rewrite !dom_insert_L !elem_of_union !elem_of_singleton.
      rewrite elem_of_app list_elem_of_singleton.
      intros [->|[->|[?|?]%Hnew]]; eauto.
      left. apply elem_of_dom; eauto.
    + intros o. rewrite elem_of_app list_elem_of_singleton.
      rewrite !dom_insert_L !elem_of_union !elem_of_singleton.
      intros [[Ho1 Ho2]%Hnr| ->]; [set_solver|].
      split; [auto|]. intros ?. exfalso. apply Hn. by apply Hsub.
    + intros o Ho Hcase.
      assert (o ≠ r) by (intros ->; destruct Hcase; [set_solver|congruence]).
      assert (o ≠ n) by (intros ->; by apply Hn, Hsub).
      rewrite !lookup_insert_ne //. apply Hsame; [done|].
      destruct Hcase; [left; set_solver|by right].
    + apply Forall2_app.
      * eapply Forall2_impl_elem_of; [exact Hall|].
        intros r' n' Hr' Hn' Hrel. cbv beta in Hrel.
        assert (r' ≠ r) by (intros ->; done).
        assert (r' ≠ n).
        { intros ->. apply Hn, Hsub, Hdom. set_solver. }
        assert (n' ≠ n) by (intros ->; done).
        destruct (is_split σ r') eqn:Hs'; [|done].
        destruct Hrel as (Hfresh & Hw & Hw').
        assert (n' ≠ r) by (intros ->; done).
        by rewrite !lookup_insert_ne.
      * constructor; [|constructor]. rewrite Hsplit.
        split_and!.
        -- intros ?. by apply Hn, Hsub.
        -- by rewrite lookup_insert_eq.
        -- rewrite lookup_insert_ne // lookup_insert_eq Hnd' //.
    + apply NoDup_app. split_and!; [done| |apply NoDup_singleton].
      by intros o ? ->%list_elem_of_singleton.
  - rewrite wrap_step_unsplit; [|by rewrite (is_split_lookup σ)].
    cbn [fst snd]. rewrite oset_add_new //. split_and!.
    + done.
    + intros o [?|?]%Hnew; [by left|right; set_solver].
    + intros o [[??]%Hnr| ->%list_elem_of_singleton]%elem_of_app.
      * split; [done|set_solver].
      * split; [apply elem_of_dom; rewrite Hrk; by apply elem_of_dom|].
        set_solver.
    + intros o Ho Hcase. destruct (decide (o = r)) as [->|Hor]; [done|].
      apply Hsame; [done|]. destruct Hcase; [left; set_solver|by right].
    + apply Forall2_app; [done|]. constructor; [|constructor].
      by rewrite Hsplit.
    + apply NoDup_app. split_and!; [done| |apply NoDup_singleton].
      by intros o ? ->%list_elem_of_singleton.
Qed.

Lemma wrapper_node_gather σ σ' r n :
  r ∈ dom σ → n ∉ dom σ →
  σ' !! n = Some (wrapper_node r) →
  σ' !! r = wrapped_node n <$> σ !! r →
  gather_wrapper σ σ' r n.
Proof.
  intros [nd Hnd]%elem_of_dom Hn Hwn Hwr. rewrite Hnd /= in Hwr.
  unfold gather_wrapper, class_of, args_of, metadata.
  rewrite Hwn Hwr /=. split_and!; try done.
  by rewrite lookup_insert_eq.
Qed.

(** C6: every requested return whose [device_id] is a list or tuple gets a
    gather wrapper, a new [ResultOp] with that return as its only argument
    and the two references in place; the other returns are passed on as
    they are; the objects created are these wrappers and nothing else, one
    for each such return. *)
Theorem wrap_returns_gather_wrappers σ decl σ' new_returns :
  let returns := init_returns decl in
  (∀ r, r ∈ returns → r ∈ dom σ) →
  wrap_returns σ returns = (σ', new_returns) →
  Forall2 (λ r n, if is_split σ r then gather_wrapper σ σ' r n else n = r)
          returns new_returns ∧
  (∀ n, n ∈ dom σ' → n ∉ dom σ →
        ∃ r, r ∈ returns ∧ is_split σ r = true ∧ n ∈ new_returns ∧
             gather_wrapper σ σ' r n) ∧
  (∀ r n n', n ∈ dom σ' → n ∉ dom σ → n' ∈ dom σ' → n' ∉ dom σ →
             args_of σ' n = [r] → args_of σ' n' = [r] → n = n').
Proof.
  intros returns Hdom Hwrap.
  destruct (wrap_returns_inv σ returns (init_returns_NoDup decl) Hdom)
    as (Hsub & Hnew & Hnr & Hsame & Hall & Hnd).
  rewrite Hwrap in Hsub Hnew Hnr Hsame Hall Hnd. cbn [fst snd] in *.
  assert (Forall2 (λ r n, if is_split σ r then gather_wrapper σ σ' r n
                          else n = r) returns new_returns) as Hgw.
  { eapply Forall2_impl_elem_of; [exact Hall|].
    intros r n Hr _ Hrel. cbv beta in Hrel.
    destruct (is_split σ r); [|done].
    destruct Hrel as (? & ? & ?). apply wrapper_node_gather; auto. }
  assert (∀ n, n ∈ dom σ' → n ∉ dom σ →
            ∃ i r, returns !! i = Some r ∧ new_returns !! i = Some n ∧
                   is_split σ r = true ∧ gather_wrapper σ σ' r n) as Hcreated.
  { intros n Hn Hfresh.
    destruct (Hnew n Hn) as [?|[i Hi]%list_elem_of_lookup_1]; [done|].
    destruct (Forall2_lookup_r _ _ _ _ _ Hgw Hi) as (r & Hr & Hrel).
    exists i, r. destruct (is_split σ r); [done|].
    subst n. exfalso. apply Hfresh, Hdom.
    by eapply list_elem_of_lookup_2. }
  split_and!; [done| |].
  - intros n Hn Hfresh.
    destruct (Hcreated n Hn Hfresh) as (i & r & Hr & Hi & Hs & Hg).
    exists r. split_and!; try done; by eapply list_elem_of_lookup_2.
  - intros r n n' Hn Hfresh Hn' Hfresh' Hargs Hargs'.
    destruct (Hcreated n Hn Hfresh) as (i & r1 & Hr1 & Hi & _ & Hg).
    destruct (Hcreated n' Hn' Hfresh') as (j & r2 & Hr2 & Hj & _ & Hg').
    destruct Hg as (_ & _ & Ha & _). destruct Hg' as (_ & _ & Ha' & _).
    rewrite Hargs in Ha. rewrite Hargs' in Ha'.
    injection Ha as <-. injection Ha' as <-.
    assert (i = j) as ->
      by (eapply NoDup_lookup; [apply (init_returns_NoDup decl)|done..]).
    congruence.
Qed.

(** Wrapping a graph in which only wrapped returns carry a forward
    reference leaves the references of [links_kept] in place. *)
Lemma wrap_returns_links_kept σ decl :
  let returns := init_returns decl in
  (∀ r, r ∈ returns → r ∈ dom σ) →
  (∀ r, r ∈ returns → is_split σ r = false →
        has_key (metadata σ r) "hetr_replaced_by" = false) →
  links_kept (wrap_returns σ returns).1 returns (wrap_returns σ returns).2.
Proof.
  intros returns Hdom Hfwd.
  destruct (wrap_returns_inv σ returns (init_returns_NoDup decl) Hdom)
    as (_ & _ & _ & Hsame & Hall & _).
  eapply Forall2_impl_elem_of; [exact Hall|].
  intros r n Hr _ Hrel. cbv beta in Hrel.
  destruct (is_split σ r) eqn:Hs.
  - right. destruct Hrel as (Hn & Hwn & _). split.
    + intros ?. by apply Hn, Hdom.
    + unfold metadata. rewrite Hwn /=. by rewrite lookup_insert_eq.
  - left. subst n. split; [done|].
    unfold metadata. rewrite Hsame; [|by apply Hdom|by right].
    by apply Hfwd.
Qed.

(** ** The return mappings *)

Lemma comp_returns_step_key σ self_returns acc i o :
  comp_returns_step σ self_returns acc (i, o)
  = match return_key σ self_returns o with
    | Some k => <[k := i]> acc
    | None => acc
    end.
Proof.
  unfold comp_returns_step, return_key.
  destruct (_ && _); [done|].
  destruct (metadata σ o !! "replaces_op") as [[]|]; try done.
  by case_bool_decide.
Qed.

(** Only requested returns are ever used as keys. *)
Lemma return_key_requested σ self_returns o k :
  return_key σ self_returns o = Some k → k ∈ self_returns.
Proof.
  unfold return_key. intros H.
  destruct (bool_decide (o ∈ self_returns)) eqn:Ho,
    (has_key (metadata σ o) "hetr_replaced_by"); simpl in H;
    try (injection H as <-; by apply bool_decide_eq_true in Ho);
    (destruct (metadata σ o !! "replaces_op") as [[| | |r| |]|]; try done;
     destruct (bool_decide (r ∈ self_returns)) eqn:Hr; [|done];
     injection H as <-; by apply bool_decide_eq_true in Hr).
Qed.

Lemma elem_of_dom_comp_returns_foldl σ self_returns acc ios k :
  k ∈ dom (foldl (comp_returns_step σ self_returns) acc ios) ↔
  k ∈ dom acc ∨ ∃ io, io ∈ ios ∧ return_key σ self_returns io.2 = Some k.
Proof.
  revert acc. induction ios as [|[i o] ios IH]; intros acc; cbn [foldl].
  { setoid_rewrite elem_of_nil. naive_solver. }
  rewrite IH comp_returns_step_key. setoid_rewrite elem_of_cons.
  destruct (return_key σ self_returns o) as [k'|] eqn:Hk.
  - rewrite dom_insert_L elem_of_union elem_of_singleton. split.
    + intros [[->|?]|(io & ? & ?)]; [|by left|right; eauto].
      right. exists (i, o). eauto.
    + intros [?|(io & [->|?] & Hio)]; [by left; right| |right; eauto].
      simpl in Hio. left; left. congruence.
  - split.
    + intros [?|(io & ? & ?)]; [by left|right; eauto].
    + intros [?|(io & [->|?] & Hio)]; [by left| |right; eauto].
      simpl in Hio. congruence.
Qed.

Lemma elem_of_dom_comp_returns σ self_returns t_returns k :
  k ∈ dom (comp_returns σ self_returns t_returns) ↔
  ∃ o, o ∈ t_returns ∧ return_key σ self_returns o = Some k.
Proof.
  unfold comp_returns. rewrite elem_of_dom_comp_returns_foldl dom_empty_L.
  split.
  - intros [?%not_elem_of_empty|([i o] & Hio & Hk)]; [done|].
    apply elem_of_enumerate, list_elem_of_lookup_2 in Hio. eauto.
  - intros (o & [i Hi]%list_elem_of_lookup_1 & Hk). right.
    exists (i, o). split; [|done]. by apply elem_of_enumerate.
Qed.

Section ReturnFacts.
Context {PbOp PbEdge Val : Type}.
Variable op_to_protobuf : heap → op → PbOp.
Variable add_edges : heap → list PbEdge → list PbOp → op → list PbEdge.
Variable all_op_references : heap → list op → list op.
Variable graph_passes :
  list (list op → heap * HetrTransformer
        → option (heap * HetrTransformer)).
Variable py_int : string → option Z.

Abbreviation init' :=
  (@HetrComputation_init PbOp PbEdge Val op_to_protobuf add_edges
     all_op_references graph_passes py_int).

Lemma prepare_graph_new_returns hetr σ c σ' hetr' new_returns :
  prepare_graph graph_passes hetr σ c = Some (σ', hetr', new_returns) →
  new_returns = (wrap_returns σ (init_returns (co_returns c))).2.
Proof.
  unfold prepare_graph. destruct (wrap_returns _ _) as [σ1 nr]. intros H.
  bind_inv H passed Hpassed. destruct passed as [? [σ2 hetr2]].
  bind_inv H σ3 Hσ3. by injection H as <- <- <-.
Qed.

(** What a child reports is a requested return, whatever the passes
    did. *)
Lemma returned_keys_requested hetr σ log c comp hetr' σ' log' :
  init' hetr σ log c = Some (comp, hetr', σ', log') →
  returned_keys comp ⊆ list_to_set (init_returns (co_returns c)).
Proof.
  intros (new_returns & _ & Hd)%init_Some.
  apply distribute_Some in Hd
    as (setup & pb & creates & gets & _ & _ & Hg & -> & _).
  intros k. unfold returned_keys. rewrite elem_of_union_list /=.
  intros (X & HX & Hk). apply list_elem_of_fmap in HX as ([t child] & -> & Hc).
  apply list_elem_of_fmap in Hc as ([evs tc] & Htc & [i Hi]%list_elem_of_lookup_1).
  simpl in Htc. subst tc.
  destruct (Forall2_lookup_r _ _ _ _ _ Hg Hi)
    as (t' & _ & ips & rs & _ & _ & [= -> -> ->]).
  simpl in Hk. apply elem_of_dom_comp_returns in Hk as (o & _ & Ho).
  apply elem_of_list_to_set. by eapply return_key_requested.
Qed.

(** Whatever the passes did to the graph, a successful build never records
    a node that was not requested: send nodes and wrappers are no keys. *)
Theorem returned_keys_subset hetr σ log c comp hetr' σ' log' :
  @HetrComputation_init PbOp PbEdge Val op_to_protobuf add_edges
    all_op_references graph_passes py_int hetr σ log c
  = Some (comp, hetr', σ', log') →
  ∀ k, k ∈ returned_keys comp → k ∈ init_returns (co_returns c).
Proof.
  intros Hinit k Hk. apply returned_keys_requested in Hinit.
  by apply Hinit, elem_of_list_to_set in Hk.
Qed.

(** C4: when the references installed by the wrapping loop are still in
    place after the passes and every entry of [new_returns] is owned by
    a registered worker, the nodes the children report, all workers
    together, are the requested returns and nothing else. *)
Theorem returned_keys_exact hetr σ log c comp hetr' σ' log' :
  init' hetr σ log c = Some (comp, hetr', σ', log') →
  let returns := init_returns (co_returns c) in
  let new_returns := (wrap_returns σ returns).2 in
  links_kept σ' returns new_returns →
  (∀ n, n ∈ new_returns →
        ∃ t, t ∈ child_transformers hetr' ∧ is_my_op σ' n t = Some true) →
  returned_keys comp = list_to_set returns.
Proof.
  intros Hinit returns new_returns Hlinks Howned.
  apply set_eq. intros k. split.
  { by apply returned_keys_requested in Hinit; apply Hinit. }
  rewrite elem_of_list_to_set. intros [i Hi]%list_elem_of_lookup_1.
  destruct (Forall2_lookup_l _ _ _ _ _ Hlinks Hi) as (n & Hn & Hrel).
  apply list_elem_of_lookup_2 in Hn.
  destruct (Howned n Hn) as (t & [j Ht]%list_elem_of_lookup_1 & Hmy).
  apply init_Some in Hinit as (nr & Hprep & Hd).
  apply prepare_graph_new_returns in Hprep. fold returns new_returns in Hprep.
  subst nr.
  apply distribute_Some in Hd
    as (setup & pb & creates & gets & _ & _ & Hg & -> & _).
  destruct (Forall2_lookup_l _ _ _ _ _ Hg Ht)
    as (g & Hgj & ips & rs & _ & Hrs & ->).
  unfold returned_keys. rewrite elem_of_union_list /=.
  eexists. split.
  - apply list_elem_of_fmap. eexists. split; [done|].
    apply list_elem_of_fmap. eexists. split; [|by eapply list_elem_of_lookup_2].
    done.
  - simpl. apply elem_of_dom_comp_returns. exists n. split.
    + rewrite (filter_my_elem_of _ _ _ _ _ _ Hrs). split; [|done].
      apply elem_of_oset_update. by right.
    + fold returns. unfold return_key.
      apply list_elem_of_lookup_2 in Hi.
      destruct Hrel as [[-> Hfwd]|[Hnr Hbwd]].
      * by rewrite bool_decide_eq_true_2 // Hfwd.
      * rewrite (bool_decide_eq_false_2 (n ∈ returns)) //= Hbwd.
        by rewrite bool_decide_eq_true_2.
Qed.
End ReturnFacts.

(** ** The worked example *)

Lemma ex_build_Some : ex_build = Some (ex_comp, ex_hetr', ex_heap', ex_log').
Proof. vm_compute. reflexivity. Qed.

Lemma ex_new_returns :
  (wrap_returns ex_heap (init_returns (co_returns ex_computation_op))).2
  = [5%nat; 4%nat].
Proof. vm_compute. reflexivity. Qed.

Lemma ex_returns : init_returns (co_returns ex_computation_op) = [3%nat; 4%nat].
Proof. vm_compute. reflexivity. Qed.

Lemma ex_returns_in_heap r :
  r ∈ init_returns (co_returns ex_computation_op) → r ∈ dom ex_heap.
Proof.
  rewrite ex_returns !elem_of_cons elem_of_nil.
  intros [->|[->|[]]]; apply elem_of_dom; vm_compute; eauto.
Qed.

(** In the example the split return [3] is wrapped by the new node [5],
    and [4] is passed on. *)
Lemma wrap_returns_gather_wrappers_witness :
  Forall2 (λ r n, if is_split ex_heap r
                  then gather_wrapper ex_heap
                         (wrap_returns ex_heap [3%nat; 4%nat]).1 r n
                  else n = r)
          [3%nat; 4%nat] (wrap_returns ex_heap [3%nat; 4%nat]).2.
Proof.
  apply (wrap_returns_gather_wrappers ex_heap (RetSequence [3%nat; 4%nat])
           (wrap_returns ex_heap [3%nat; 4%nat]).1
           (wrap_returns ex_heap [3%nat; 4%nat]).2).
  - exact ex_returns_in_heap.
  - apply surjective_pairing.
Defined.

(** The build of the example keeps the references and gives every entry
    of [new_returns] an owner, so its children report [3] and [4]. *)
Lemma returned_keys_exact_witness :
  returned_keys ex_comp = list_to_set [3%nat; 4%nat].
Proof.
  rewrite -ex_returns.
  apply (returned_keys_exact (λ _ o, o) ex_add_edges (λ _ roots, roots)
           ex_passes ex_int ex_hetr ex_heap [] ex_computation_op
           ex_comp ex_hetr' ex_heap' ex_log' ex_build_Some).
  - unfold links_kept. rewrite ex_new_returns ex_returns.
    constructor; [|constructor; [|constructor]].
    + right. split; [|by vm_compute].
      rewrite !elem_of_cons elem_of_nil. intros [?|[?|[]]]; discriminate.
    + left. split; [done|by vm_compute].
  - intros n. rewrite ex_new_returns !elem_of_cons elem_of_nil.
    intros [->|[->|[]]].
    + exists "cpu0". split; [by vm_compute; left|by vm_compute].
    + exists "cpu1". split; [by vm_compute; right; left|by vm_compute].
Defined.

(** In the log of the example the two creation requests come before the
    two fetches, both in the order cpu0, cpu1. *)
Lemma create_requests_before_fetches_witness :
  ∃ added, ex_log' = [] ++ added ∧
    omap created_worker added = child_transformers ex_hetr' ∧
    omap fetched_worker added = child_transformers ex_hetr' ∧
    ∀ i j e e', added !! i = Some e → added !! j = Some e' →
      is_Some (created_worker e) → is_Some (fetched_worker e') → (i < j)%nat.
Proof.
  exact (create_requests_before_fetches (λ _ o, o) ex_add_edges
           (λ _ roots, roots) ex_passes ex_int ex_hetr ex_heap []
           ex_computation_op ex_comp ex_hetr' ex_heap' ex_log' ex_build_Some).
Defined.


(** The call of the example returns the values of [3] and [4] in that
    order. *)
Lemma call_reshapes_result_witness :
  snd <$> @HetrComputation_call nat (nat * nat) Z ex_worker_results ex_comp
            [5%Z; 7%Z]
  = Some (RTuple [5%Z; 35%Z]).
Proof.
  assert (feed_all [5%Z; 7%Z] (child_computations ex_comp)
          = Some [("cpu0", [5%Z]); ("cpu1", [5%Z; 7%Z])]) as Hfed
    by (by vm_compute).
  destruct (call_reshapes_result (PbOp:=nat) (PbEdge:=nat * nat)
              ex_worker_results ex_comp [5%Z; 7%Z] _ Hfed) as (_ & Hseq & _).
  apply (Hseq [3%nat; 4%nat]).
  - left. by vm_compute.
  - repeat constructor; by vm_compute.
Defined.

(** Without declared returns the call of the example feeds and collects
    from both workers and returns [None]. *)
Lemma call_undeclared_returns_none_witness :
  ∃ log, @HetrComputation_call nat (nat * nat) Z ex_worker_results
           ex_comp_none [5%Z; 7%Z] = Some (log, RNone) ∧
         (omap fed_input log).*1 = (child_computations ex_comp_none).*1 ∧
         omap collected_worker log = (child_computations ex_comp_none).*1.
Proof.
  apply (call_undeclared_returns_none ex_worker_results ex_comp_none
           [5%Z; 7%Z] None); [done|].
  assert (child_computations ex_comp_none
          = [("cpu0", {| param_idx := [0%nat]; cc_returns := {[3%nat := 0%nat]} |});
             ("cpu1", {| param_idx := [0%nat; 1%nat];
                         cc_returns := {[4%nat := 0%nat]} |})]) as ->
    by (by vm_compute).
  repeat constructor.
Defined.

(** A transformer whose recorded pid is [1] is left alone by a [close]
    from pid [7]. *)
Lemma close_idempotent_owner_only_witness :
  @close nat (nat * nat) Z 7 (ex_hetr, []) = (ex_hetr, []).
Proof.
  destruct (close_idempotent_owner_only (PbOp:=nat) (PbEdge:=nat * nat)
              (Val:=Z) 7 (ex_hetr, [])) as [_ Hforeign].
  apply Hforeign. simpl. lia.
Defined.

(** ["gpu0"] without an importable GPU backend: the call raises. *)
Lemma build_transformer_unknown_or_unavailable_witness :
  (@build_transformer nat (nat * nat) Z false "gpu0" (Some 0%Z)).2 = None.
Proof.
  apply (build_transformer_unknown_or_unavailable (PbOp:=nat)
           (PbEdge:=nat * nat) (Val:=Z) false "gpu0" (Some 0%Z)).
  - reflexivity.
  - right. reflexivity.
Defined.

(** * Further properties of the code *)

(** ** Chunk sizes *)

Section ChunkSizes.
Context {PbOp PbEdge : Type}.
Variable op_to_protobuf : heap → op → PbOp.
Variable add_edges : heap → list PbEdge → list PbOp → op → list PbEdge.
Variable σ : heap.

(** No chunk is empty and none holds more than eleven descriptors. *)
Lemma chunk_loop_sizes len i todo pb_ops pb_edges
    (acc : list (@chunk PbOp PbEdge)) :
  (0 ≤ i)%Z → (i + Z.of_nat (length todo) = len)%Z →
  (i ≤ 10 → Z.of_nat (length pb_ops) ≤ i)%Z →
  (11 ≤ i → Z.of_nat (length pb_ops) ≤ (i - 1) mod 10)%Z →
  Forall (λ c, 1 ≤ length c.1 ≤ 11)%nat acc →
  Forall (λ c, 1 ≤ length c.1 ≤ 11)%nat
    (chunk_loop op_to_protobuf add_edges σ len i todo pb_ops pb_edges acc).
Proof.
  revert i pb_ops pb_edges acc.
  induction todo as [|o todo IH];
    intros i pb_ops pb_edges acc Hi Hlen Hlow Hhigh Hacc; [done|].
  rewrite chunk_loop_cons. cbv zeta. unfold _OPS_PER_MSG.
  cbn [length] in Hlen.
  destruct (negb (i =? 0)%Z && (i mod 10 =? 0)%Z || (i =? len - 1)%Z)
    eqn:Hflush.
  - apply IH; [lia|lia|simpl; lia|simpl; Z.div_mod_to_equations; lia|].
    apply Forall_app. split; [done|]. constructor; [|done].
    rewrite /= length_app /=. Z.div_mod_to_equations. lia.
  - apply orb_false_iff in Hflush as [Hmod Hlast].
    apply Z.eqb_neq in Hlast.
    assert (i = 0 ∨ i mod 10 ≠ 0)%Z as Hcase.
    { destruct (i =? 0)%Z eqn:H0; [left; by apply Z.eqb_eq|right].
      simpl in Hmod. by apply Z.eqb_neq. }
    apply IH; [lia|lia| | |done]; rewrite length_app /=;
      Z.div_mod_to_equations; lia.
Qed.

(** Only the first chunk can hold more than ten descriptors. *)
Lemma chunk_loop_later_sizes len i todo pb_ops pb_edges
    (acc : list (@chunk PbOp PbEdge)) :
  (0 ≤ i)%Z → (i + Z.of_nat (length todo) = len)%Z →
  (i ≤ 10 → acc = [])%Z →
  (11 ≤ i → Z.of_nat (length pb_ops) ≤ (i - 1) mod 10)%Z →
  (∀ k c, 1 ≤ k → acc !! k = Some c → length c.1 ≤ 10)%nat →
  ∀ k c, (1 ≤ k)%nat →
    chunk_loop op_to_protobuf add_edges σ len i todo pb_ops pb_edges acc !! k
    = Some c →
    (length c.1 ≤ 10)%nat.
Proof.
  revert i pb_ops pb_edges acc.
  induction todo as [|o todo IH];
    intros i pb_ops pb_edges acc Hi Hlen Hlow Hhigh Hacc; [done|].
  rewrite chunk_loop_cons. cbv zeta. unfold _OPS_PER_MSG.
  cbn [length] in Hlen.
  assert (∀ k c, (1 ≤ k)%nat → (11 ≤ i)%Z →
            (acc ++ [(pb_ops ++ [op_to_protobuf σ o],
                      add_edges σ pb_edges
                        (pb_ops ++ [op_to_protobuf σ o]) o)]) !! k = Some c →
            (length c.1 ≤ 10)%nat) as Hflushed.
  { intros k c Hk Hi11 Hc. apply lookup_app_Some in Hc as [Hc|[_ Hc]].
    - by eapply Hacc.
    - apply list_lookup_singleton_Some in Hc as [_ <-].
      rewrite /= length_app /=. specialize (Hhigh Hi11).
      Z.div_mod_to_equations. lia. }
  destruct (decide (todo = [])) as [->|Htodo].
  - cbn [length] in Hlen.
    replace (i =? len - 1)%Z with true by (symmetry; apply Z.eqb_eq; lia).
    rewrite orb_true_r. cbn [chunk_loop]. intros k c Hk Hc.
    destruct (decide (i ≤ 10)%Z) as [Hle|Hgt]; [|eapply Hflushed; [done|lia|done]].
    rewrite (Hlow Hle) in Hc. destruct k; [lia|done].
  - assert (length todo ≠ 0%nat) by by destruct todo.
    replace (i =? len - 1)%Z with false by (symmetry; apply Z.eqb_neq; lia).
    rewrite orb_false_r.
    destruct (negb (i =? 0)%Z && (i mod 10 =? 0)%Z) eqn:Hflush.
    + apply andb_true_iff in Hflush as [Hi0 Hmod].
      apply negb_true_iff, Z.eqb_neq in Hi0. apply Z.eqb_eq in Hmod.
      apply IH; [lia|lia|intros; exfalso; Z.div_mod_to_equations; lia
                |simpl; Z.div_mod_to_equations; lia|].
      intros k c Hk Hc. destruct (decide (i ≤ 10)%Z) as [Hle|Hgt].
      * rewrite (Hlow Hle) in Hc. destruct k; [lia|done].
      * eapply Hflushed; [done|lia|done].
    + assert (i = 0 ∨ i mod 10 ≠ 0)%Z as Hcase.
      { destruct (i =? 0)%Z eqn:H0; [left; by apply Z.eqb_eq|right].
        simpl in Hflush. by apply Z.eqb_neq. }
      apply IH; [lia| lia| | |done].
      * intros ?. apply Hlow. lia.
      * intros ?. rewrite length_app /=.
        assert (11 ≤ i)%Z as Hi11 by (Z.div_mod_to_equations; lia).
        specialize (Hhigh Hi11). Z.div_mod_to_equations. lia.
Qed.

(** Every chunk of a serialized graph holds at least one and at most
    eleven descriptors, and every chunk after the first at most ten. *)
Theorem serialize_chunk_sizes whole_graph :
  Forall (λ c, 1 ≤ length c.1 ≤ 11)%nat
    (serialize_whole_graph op_to_protobuf add_edges σ whole_graph) ∧
  ∀ k c, (1 ≤ k)%nat →
    serialize_whole_graph op_to_protobuf add_edges σ whole_graph !! k
    = Some c →
    (length c.1 ≤ 10)%nat.
Proof.
  unfold serialize_whole_graph. split.
  - apply chunk_loop_sizes; simpl; try lia. constructor.
  - apply chunk_loop_later_sizes; simpl; try lia; done.
Qed.
End ChunkSizes.


(** ** Ownership *)

Lemma string_prefix_spec (n h : string) :
  String.prefix n h = true ↔ ∃ post, h = String.append n post.
Proof.
  revert h. induction n as [|a n IH]; intros h.
  - destruct h; simpl; split; eauto.
  - destruct h as [|b h]; simpl.
    + split; [done|]. by intros [post ?].
    + destruct (ascii_dec a b) as [->|Hab].
      * rewrite IH. split; intros [post Hpost]; exists post.
        -- by rewrite Hpost.
        -- by injection Hpost.
      * split; [done|]. intros [post [= ? _]]. done.
Qed.

(** [str_contains] is the substring test. *)
Lemma str_contains_spec (n h : string) :
  str_contains n h = true ↔
  ∃ pre post, h = String.append pre (String.append n post).
Proof.
  induction h as [|b h IH]; cbn [str_contains].
  - rewrite orb_false_r string_prefix_spec. split.
    + intros [post ->]. by exists EmptyString, post.
    + intros ([|??] & post & Hh); [by exists post|done].
  - rewrite orb_true_iff string_prefix_spec IH. split.
    + intros [[post ->]|(pre & post & ->)].
      * by exists EmptyString, post.
      * by exists (String b pre), post.
    + intros ([|a pre] & post & Hh).
      * left. by exists post.
      * right. injection Hh as -> ->. by exists pre, post.
Qed.

Lemma string_append_empty_r (s : string) : String.append s EmptyString = s.
Proof.
  induction s as [|a s IH]; [done|].
  change (String a (String.append s EmptyString) = String a s).
  by rewrite IH.
Qed.

(** A worker owns an operation whose ['transformer'] is a string exactly
    when its name occurs somewhere in that string: a worker named like the
    beginning of another worker's name owns that worker's operations too. *)
Theorem is_my_op_substring σ o name op_trans :
  metadata σ o !! "transformer" = Some (MStr op_trans) →
  is_my_op σ o name = Some true ↔
  ∃ pre post, op_trans = String.append pre (String.append name post).
Proof.
  intros Hmeta. unfold is_my_op. rewrite Hmeta -str_contains_spec.
  split.
  - intros [= [Heq|?]%orb_true_iff]; [|done].
    apply String.eqb_eq in Heq as ->. apply str_contains_spec.
    exists EmptyString, EmptyString. by rewrite /= string_append_empty_r.
  - intros ->. by rewrite orb_true_r.
Qed.

Lemma str_in_list_spec name l : str_in_list name l = true ↔ MStr name ∈ l.
Proof.
  unfold str_in_list. induction l as [|v l IH]; simpl.
  - split; [done|]. by intros ?%elem_of_nil.
  - rewrite orb_true_iff IH elem_of_cons. split.
    + intros [Hv|?]; [left|by right].
      destruct v; try done. by apply String.eqb_eq in Hv as ->.
    + intros [<-|?]; [left|by right]. apply String.eqb_refl.
Qed.

(** When ['transformer'] is a list or a tuple, the workers named in it own
    the operation and no other does, however the names look. *)
Theorem is_my_op_listed σ o name op_trans :
  metadata σ o !! "transformer" = Some (MList op_trans) ∨
  metadata σ o !! "transformer" = Some (MTuple op_trans) →
  is_my_op σ o name = Some true ↔ MStr name ∈ op_trans.
Proof.
  unfold is_my_op. intros [-> | ->]; rewrite -str_in_list_spec;
    split; congruence.
Qed.

(** ** The worker registry *)

Section RegistryFacts.
Context {PbOp PbEdge Val : Type}.
Variable py_int : string → option Z.

(** What a successful registration does. *)
Lemma register_transformer_Some self tname self' :
  register_transformer py_int self tname = Some self' →
  tname ∈ child_transformers self' ∧
  (if bool_decide (tname ∈ child_transformers self)
   then self' = self
   else child_transformers self' = child_transformers self ++ [tname]) ∧
  (NoDup (child_transformers self) → NoDup (child_transformers self')) ∧
  default_device self' = default_device self ∧
  my_pid self' = my_pid self ∧
  is_closed self' = is_closed self ∧
  send_nodes self' = send_nodes self.
Proof.
  unfold register_transformer. case_bool_decide as Hin.
  { by intros [= <-]. }
  destruct (_ || _); [|done]. intros H. bind_inv H dev_id Hdev.
  injection H as <-. simpl.
  split_and!; try done.
  - set_solver.
  - intros Hnd. apply NoDup_app. split_and!; [done| |apply NoDup_singleton].
    by intros t ? ->%list_elem_of_singleton.
Qed.

(** A successful registration leaves the name registered, appends it when
    it is new and changes nothing else; the registry never holds a name
    twice. *)
Theorem register_transformer_registry self tname self' :
  register_transformer py_int self tname = Some self' →
  tname ∈ child_transformers self' ∧
  (if bool_decide (tname ∈ child_transformers self)
   then self' = self
   else child_transformers self' = child_transformers self ++ [tname]) ∧
  (NoDup (child_transformers self) → NoDup (child_transformers self')) ∧
  default_device self' = default_device self ∧
  my_pid self' = my_pid self ∧
  is_closed self' = is_closed self ∧
  send_nodes self' = send_nodes self.
Proof. apply register_transformer_Some. Qed.

(** Registering a name a second time changes nothing. *)
Theorem register_transformer_idempotent self tname self' :
  register_transformer py_int self tname = Some self' →
  register_transformer py_int self' tname = Some self'.
Proof.
  intros (Hin & _)%register_transformer_Some.
  unfold register_transformer. by rewrite bool_decide_eq_true_2.
Qed.

(** Registration raises exactly for a new name that has neither ['cpu']
    nor ['gpu'] in it or whose tail after three characters is no integer;
    a name already registered is accepted whatever it looks like. *)
Theorem register_transformer_raises self tname :
  register_transformer py_int self tname = None ↔
  (tname ∉ child_transformers self) ∧
  (str_contains "cpu" tname || str_contains "gpu" tname = false ∨
   py_int (str_drop 3 tname) = None).
Proof.
  unfold register_transformer. case_bool_decide as Hin.
  { split; [done|]. by intros [? _]. }
  destruct (_ || _).
  - destruct (py_int _); simpl; split; try done; try naive_solver.
  - naive_solver.
Qed.

(** The client of a name is found once the name is registered, and
    registering a name does not change what is found under other names. *)
Theorem transformer_after_register self tname self' :
  register_transformer py_int self tname = Some self' →
  transformer self' tname = Some tname ∧
  ∀ other, other ≠ tname → transformer self' other = transformer self other.
Proof.
  intros (Hin & Hreg & _)%register_transformer_Some.
  unfold transformer. split; [by rewrite bool_decide_eq_true_2|].
  intros other Hne. case_bool_decide as Hold; [by subst self'|].
  rewrite Hreg.
  rewrite (bool_decide_ext (other ∈ child_transformers self ++ [tname])
             (other ∈ child_transformers self)) //.
  set_solver.
Qed.

(** Every name of a registry filled by registrations passes [int]. *)
Lemma register_transformer_tails self tname self' :
  register_transformer py_int self tname = Some self' →
  Forall (λ t, is_Some (py_int (str_drop 3 t))) (child_transformers self) →
  Forall (λ t, is_Some (py_int (str_drop 3 t))) (child_transformers self').
Proof.
  unfold register_transformer. case_bool_decide as Hin; [by intros [= <-]|].
  destruct (_ || _); [|done]. intros Hreg Hall. bind_inv Hreg dev_id Hdev.
  injection Hreg as <-. simpl. apply Forall_app. split; [done|].
  constructor; [by rewrite Hdev|done].
Qed.

Lemma foldl_opt_register names self self' :
  foldl_opt (register_transformer py_int) self names = Some self' →
  Forall (λ t, is_Some (py_int (str_drop 3 t))) (child_transformers self) →
  NoDup (child_transformers self) →
  Forall (λ t, is_Some (py_int (str_drop 3 t))) (child_transformers self') ∧
  NoDup (child_transformers self') ∧
  (∀ t, t ∈ child_transformers self' ↔
        t ∈ child_transformers self ∨ t ∈ names).
Proof.
  revert self. induction names as [|t names IH]; intros self H Hall Hnd.
  { injection H as <-. split_and!; try done. set_solver. }
  simpl in H. bind_inv H self1 H1.
  pose proof (register_transformer_tails _ _ _ H1 Hall) as Hall1.
  apply register_transformer_Some in H1 as (Hin & Hreg & Hnd1 & _).
  destruct (IH _ H Hall1 (Hnd1 Hnd)) as (? & ? & Hiff).
  split_and!; try done. intros u. rewrite Hiff elem_of_cons.
  case_bool_decide; [subst self1; set_solver|].
  rewrite Hreg. set_solver.
Qed.

(** A registry filled from a new transformer by successful registrations
    holds every registered name once, and [setup_child_transformers] on it
    does not raise: it gives every client, in registry order, the address
    asked for the device id in the tail of its name. *)
Theorem setup_after_registrations device getpid names self num_servers :
  foldl_opt (register_transformer py_int)
    (HetrTransformer_init device getpid) names = Some self →
  NoDup (child_transformers self) ∧
  (∀ t, t ∈ child_transformers self ↔ t ∈ names) ∧
  ∃ setup : list (event PbOp PbEdge Val),
    setup_child_transformers py_int self num_servers = Some setup ∧
    Forall2 (λ t e, ∃ dev_id, py_int (str_drop 3 t) = Some dev_id ∧
                      e = SetServerAddress t dev_id num_servers)
            (child_transformers self) setup.
Proof.
  intros H. apply foldl_opt_register in H as (Hall & Hnd & Hiff);
    [|constructor..].
  split_and!; [done|set_solver|].
  unfold setup_child_transformers.
  assert (is_Some (mapM (λ tname, dev_id ← py_int (str_drop 3 tname);
                           Some (SetServerAddress (PbOp:=PbOp) (PbEdge:=PbEdge)
                                   (Val:=Val) tname dev_id num_servers))
                     (child_transformers self))) as [setup Hsetup].
  { apply mapM_is_Some. eapply Forall_impl; [exact Hall|].
    intros t [dev_id Hdev]. rewrite /= Hdev /=. eauto. }
  exists setup. split; [done|]. apply mapM_Some in Hsetup.
  eapply Forall2_impl; [exact Hsetup|]. intros t e He. cbv beta in He.
  bind_inv He dev_id Hdev. injection He as <-. by exists dev_id.
Qed.
End RegistryFacts.

(** ** More on wrapping *)

Lemma wrap_unsplit_foldl σ returns nk :
  NoDup (nk ++ returns) →
  (∀ r, r ∈ returns → is_split σ r = false) →
  foldl wrap_step (σ, nk) returns = (σ, nk ++ returns).
Proof.
  revert nk.
  induction returns as [|r returns IH]; intros nk Hnd Hun; cbn [foldl].
  { by rewrite app_nil_r. }
  apply NoDup_app in Hnd as (Hnk & Hdisj & [Hr Hrs]%NoDup_cons).
  rewrite wrap_step_unsplit; [|apply Hun; by left].
  rewrite oset_add_new; [|intros Hin; apply (Hdisj r Hin); by left].
  rewrite IH.
  - by rewrite -app_assoc.
  - apply NoDup_app. split_and!; [|set_solver|done].
    apply NoDup_app. split_and!; [done|set_solver|apply NoDup_singleton].
  - intros r' Hr'. apply Hun. by right.
Qed.

(** When no requested return has a list or tuple as [device_id], the
    wrapping loop creates nothing, changes nothing and hands the returns
    on as they are. *)
Theorem wrap_returns_unsplit σ decl :
  (∀ r, r ∈ init_returns decl → is_split σ r = false) →
  wrap_returns σ (init_returns decl) = (σ, init_returns decl).
Proof.
  intros Hun. unfold wrap_returns. rewrite wrap_unsplit_foldl //.
  apply init_returns_NoDup.
Qed.

(** What the wrapping loop leaves of the graph it was given: one entry of
    [new_returns] per return; every node keeps its class, its arguments and
    all metadata but ['is_split_op'] and ['hetr_replaced_by']; a node that
    is no split return is not touched at all; a wrapped return is marked
    ['is_split_op'] and its wrapper sits on device id [0]. *)
Theorem wrap_returns_preserves σ decl σ' new_returns :
  let returns := init_returns decl in
  (∀ r, r ∈ returns → r ∈ dom σ) →
  wrap_returns σ returns = (σ', new_returns) →
  length new_returns = length returns ∧
  NoDup new_returns ∧
  (∀ o, o ∈ dom σ →
     class_of σ' o = class_of σ o ∧ args_of σ' o = args_of σ o ∧
     ∀ k, k ≠ "is_split_op" → k ≠ "hetr_replaced_by" →
          metadata σ' o !! k = metadata σ o !! k) ∧
  (∀ o, o ∈ dom σ → o ∉ returns ∨ is_split σ o = false →
     σ' !! o = σ !! o) ∧
  (∀ i r n, returns !! i = Some r → new_returns !! i = Some n →
     is_split σ r = true →
     metadata σ' r !! "is_split_op" = Some (MBool true) ∧
     metadata σ' n !! "device_id" = Some (MInt 0)).
Proof.
  intros returns Hdom Hwrap.
  destruct (wrap_returns_inv σ returns (init_returns_NoDup decl) Hdom)
    as (Hsub & Hnew & Hnr & Hsame & Hall & Hnd).
  rewrite Hwrap in Hsub Hnew Hnr Hsame Hall Hnd. cbn [fst snd] in *.
  assert (∀ i r n, returns !! i = Some r → new_returns !! i = Some n →
            is_split σ r = true →
            σ' !! n = Some (wrapper_node r) ∧
            σ' !! r = wrapped_node n <$> σ !! r) as Hpair.
  { intros i r n Hr Hn Hs.
    destruct (Forall2_lookup_l _ _ _ _ _ Hall Hr) as (n' & Hn' & Hrel).
    rewrite Hn in Hn'. injection Hn' as <-. rewrite Hs in Hrel. tauto. }
  split_and!.
  - symmetry. by eapply Forall2_length.
  - done.
  - intros o Ho.
    destruct (decide (o ∈ returns ∧ is_split σ o = true)) as [[Hin Hs]|Hno].
    + apply list_elem_of_lookup_1 in Hin as [i Hi].
      destruct (Forall2_lookup_l _ _ _ _ _ Hall Hi) as (n & Hn & _).
      destruct (Hpair i o n Hi Hn Hs) as [_ Ho'].
      apply elem_of_dom in Ho as [nd Hnd'].
      unfold class_of, args_of, metadata. rewrite Ho' Hnd' /=.
      split_and!; try done. intros k ??. by rewrite !lookup_insert_ne.
    + assert (σ' !! o = σ !! o) as Heq.
      { apply Hsame; [done|]. destruct (is_split σ o); [left|by right].
        intros ?. by apply Hno. }
      unfold class_of, args_of, metadata. by rewrite Heq.
  - done.
  - intros i r n Hr Hn Hs. destruct (Hpair i r n Hr Hn Hs) as [Hwn Hwr].
    assert (r ∈ dom σ) as [nd Hnd']%elem_of_dom
      by (apply Hdom; by eapply list_elem_of_lookup_2).
    unfold metadata. rewrite Hwn Hwr Hnd' /=. split.
    + by rewrite lookup_insert_ne // lookup_insert_eq.
    + by rewrite lookup_insert_ne // lookup_singleton_eq.
Qed.

(** ** Parameters that wrap a tensor *)

(** The patch of lines 98-100 on one parameter: a parameter that is no
    [TensorValueOp] is left alone; a [TensorValueOp] takes over the
    metadata of the first tensor it reads, entry by entry, and so is owned
    by the workers that own that tensor; nothing else in the arena
    changes. *)
Theorem tensor_value_hack_metadata σ p σ' :
  tensor_value_hack σ p = Some σ' →
  (class_of σ p ≠ Some TensorValueOp → σ' = σ) ∧
  (class_of σ p = Some TensorValueOp →
     ∃ n s, σ !! p = Some n ∧ node_states_read n !! 0%nat = Some s ∧
       metadata σ' p = metadata σ s ∪ metadata σ p ∧
       (∀ o, o ≠ p → σ' !! o = σ !! o) ∧
       (∀ t, is_Some (metadata σ s !! "transformer") →
             is_my_op σ' p t = is_my_op σ s t)).
Proof.
  unfold tensor_value_hack, class_of. destruct (σ !! p) as [n|] eqn:Hp;
    [|intros [= <-]; split; [done|by intros [=]]].
  cbn [fmap option_fmap option_map].
  destruct (node_class n) eqn:Hc;
    try (intros [= <-]; split; [done|by intros [=]]).
  intros H. bind_inv H s Hs. injection H as <-. split; [done|].
  intros _. exists n, s. split_and!; try done.
  - unfold metadata at 1. by rewrite lookup_insert_eq /= {3}/metadata Hp.
  - intros o Ho. by rewrite lookup_insert_ne.
  - intros t [v Hv]. unfold is_my_op.
    unfold metadata at 1. rewrite lookup_insert_eq /=.
    by rewrite (lookup_union_Some_l _ _ _ v) // Hv.
Qed.

(** A [TensorValueOp] parameter that reads no tensor makes the patch
    raise. *)
Theorem tensor_value_hack_raises σ p n :
  σ !! p = Some n → node_class n = TensorValueOp →
  node_states_read n = [] →
  tensor_value_hack σ p = None.
Proof.
  unfold tensor_value_hack. intros -> -> ->. done.
Qed.

(** ** More on the build *)

Lemma filter_my_None {A} σ name (key : A → op) xs x :
  x ∈ xs → is_my_op σ (key x) name = None →
  filter_my σ name key xs = None.
Proof.
  intros Hx Hnone. induction xs as [|y xs IH]; [by apply elem_of_nil in Hx|].
  apply elem_of_cons in Hx as [<-|Hx]; simpl.
  - by rewrite Hnone.
  - rewrite (IH Hx). by destruct (is_my_op σ (key y) name).
Qed.

Lemma mapM_None_elem_of {A B} (f : A → option B) (l : list A) x :
  x ∈ l → f x = None → mapM f l = None.
Proof.
  intros Hx Hnone. destruct (mapM f l) as [k|] eqn:Hk; [|done].
  apply mapM_Some in Hk. apply list_elem_of_lookup_1 in Hx as [i Hi].
  destruct (Forall2_lookup_l _ _ _ _ _ Hk Hi) as (y & _ & Hy). congruence.
Qed.

(** Positions kept by an ownership filter over an enumerated list are at
    or after the first position and strictly ascending. *)
Lemma filter_my_enumerate_from_ascending σ name (l : list op) i ips :
  filter_my σ name snd (enumerate_from i l) = Some ips →
  (∀ x, x ∈ ips.*1 → (i ≤ x)%nat) ∧
  (∀ j k x y, (j < k)%nat → ips.*1 !! j = Some x → ips.*1 !! k = Some y →
              (x < y)%nat).
Proof.
  revert i ips. induction l as [|p l IH]; intros i ips; simpl.
  { intros [= <-]. split; [by intros ? ?%elem_of_nil|done]. }
  intros H. bind_inv H b Hb. bind_inv H rest Hrest. injection H as <-.
  destruct (IH _ _ Hrest) as [Hge Hasc]. destruct b; simpl.
  - split.
    + intros x [->|Hx]%elem_of_cons; [lia|]. apply Hge in Hx. lia.
    + intros [|j] [|k] x y Hjk Hx Hy; try lia; simpl in *.
      * injection Hx as <-. apply list_elem_of_lookup_2, Hge in Hy. lia.
      * eapply (Hasc j k); [lia|done..].
  - split; [|done]. intros x Hx. apply Hge in Hx. lia.
Qed.

(** Where [comp.returns] sends a key: to the position of an entry of
    [t_returns] that is recorded under that key. *)
Lemma comp_returns_foldl_lookup σ self_returns acc ios k i :
  foldl (comp_returns_step σ self_returns) acc ios !! k = Some i →
  acc !! k = Some i ∨
  ∃ o, (i, o) ∈ ios ∧ return_key σ self_returns o = Some k.
Proof.
  revert acc. induction ios as [|[j o] ios IH]; intros acc; cbn [foldl].
  { by left. }
  intros [Hacc|(o' & Hin & Hkey)]%IH.
  - rewrite comp_returns_step_key in Hacc.
    destruct (return_key σ self_returns o) as [k'|] eqn:Hk'; [|by left].
    destruct (decide (k' = k)) as [->|Hne].
    + rewrite lookup_insert_eq in Hacc. injection Hacc as ->.
      right. exists o. split; [by left|done].
    + rewrite lookup_insert_ne // in Hacc. by left.
  - right. exists o'. split; [by right|done].
Qed.

Lemma comp_returns_lookup σ self_returns t_returns k i :
  comp_returns σ self_returns t_returns !! k = Some i →
  ∃ o, t_returns !! i = Some o ∧ return_key σ self_returns o = Some k.
Proof.
  unfold comp_returns.
  intros [?|(o & Hin & Hkey)]%comp_returns_foldl_lookup; [done|].
  exists o. by apply elem_of_enumerate in Hin.
Qed.

Section MoreBuildFacts.
Context {PbOp PbEdge Val : Type}.
Variable op_to_protobuf : heap → op → PbOp.
Variable add_edges : heap → list PbEdge → list PbOp → op → list PbEdge.
Variable all_op_references : heap → list op → list op.
Variable graph_passes :
  list (list op → heap * HetrTransformer
        → option (heap * HetrTransformer)).
Variable py_int : string → option Z.

(** A successful second half of the build, with the graph and the lists
    that go to each worker spelled out. *)
Lemma distribute_requests hetr σ log c new_returns comp log' :
  @distribute PbOp PbEdge Val op_to_protobuf add_edges all_op_references
    py_int hetr σ log c new_returns = Some (comp, log') →
  let workers := child_transformers hetr in
  let returns := init_returns (co_returns c) in
  let all_returns := oset_union (send_nodes hetr) new_returns in
  ∃ transform_returns setup creates gets,
    mapM (transform_op σ) all_returns = Some transform_returns ∧
    setup_child_transformers py_int hetr (length workers) = Some setup ∧
    Forall2 (λ t evs, ∃ rs ps tops,
               filter_my σ t id all_returns = Some rs ∧
               filter_my σ t id (co_parameters c) = Some ps ∧
               mapM (transform_op σ) rs = Some tops ∧
               evs = [BuildTransformer t;
                      CreateComputation t
                        (serialize_whole_graph op_to_protobuf add_edges σ
                           (all_op_references σ
                              (transform_returns ++ co_parameters c)))
                        tops ps])
            workers creates ∧
    Forall2 (λ t g, ∃ ips rs,
               filter_my σ t snd (enumerate (co_parameters c)) = Some ips ∧
               filter_my σ t id all_returns = Some rs ∧
               g = ([GetComputation t],
                    (t, {| param_idx := ips.*1;
                           cc_returns := comp_returns σ returns rs |})))
            workers gets ∧
    comp = {| child_computations := gets.*2;
              hc_returns := returns;
              computation_op := c |} ∧
    log' = log ++ [Launch (length workers)
                     (if String.eqb (default_device hetr) "cpu"
                      then 1%nat else length workers)]
               ++ setup ++ concat creates ++ concat gets.*1.
Proof.
  intros H workers returns all_returns. unfold distribute in H.
  fold workers returns all_returns in H.
  bind_inv H setup Hsetup. bind_inv H transform_returns Htr.
  bind_inv H tps Htps. bind_inv H trs Htrs.
  bind_inv H creates Hc. bind_inv H gets Hg.
  injection H as <- <-.
  exists transform_returns, setup, creates, gets. split_and!; try done.
  - apply mapM_Some in Hc. eapply Forall2_impl; [exact Hc|].
    intros t evs Hevs. unfold create_requests in Hevs.
    bind_inv Hevs rs Hrs. bind_inv Hevs ps Hps. bind_inv Hevs tops Htops.
    injection Hevs as <-. by exists rs, ps, tops.
  - apply mapM_Some in Hg. eapply Forall2_impl; [exact Hg|].
    intros t g Hgt. unfold get_computation in Hgt.
    bind_inv Hgt ips Hips. bind_inv Hgt rs Hrs.
    injection Hgt as <-. by exists ips, rs.
Qed.

Lemma init_requests hetr σ log c comp hetr' σ' log' :
  @HetrComputation_init PbOp PbEdge Val op_to_protobuf add_edges
    all_op_references graph_passes py_int hetr σ log c
  = Some (comp, hetr', σ', log') →
  ∃ new_returns,
    @distribute PbOp PbEdge Val op_to_protobuf add_edges all_op_references
      py_int hetr' σ' log c new_returns = Some (comp, log').
Proof. intros (new_returns & _ & Hd)%init_Some. eauto. Qed.
End MoreBuildFacts.

Section BuildExtras.
Context {PbOp PbEdge Val : Type}.
Variable op_to_protobuf : heap → op → PbOp.
Variable add_edges : heap → list PbEdge → list PbOp → op → list PbEdge.
Variable all_op_references : heap → list op → list op.
Variable graph_passes :
  list (list op → heap * HetrTransformer
        → option (heap * HetrTransformer)).
Variable py_int : string → option Z.

Abbreviation init'' :=
  (@HetrComputation_init PbOp PbEdge Val op_to_protobuf add_edges
     all_op_references graph_passes py_int).

Lemma created_graph_worker (e : event PbOp PbEdge Val) pb :
  created_graph e = Some pb → is_Some (created_worker e).
Proof. destruct e; simpl; try done; eauto. Qed.

(** The graph is serialized once per build: every creation request of a
    build carries the same chunk sequence, the serialization of the
    closure of the returns (a wrapper standing for its argument), the send
    nodes and the parameters. *)
Theorem create_requests_share_graph hetr σ log c comp hetr' σ' log' :
  init'' hetr σ log c = Some (comp, hetr', σ', log') →
  let new_returns := (wrap_returns σ (init_returns (co_returns c))).2 in
  ∃ added transform_returns,
    log' = log ++ added ∧
    mapM (transform_op σ') (oset_union (send_nodes hetr') new_returns)
    = Some transform_returns ∧
    ∀ e pb, e ∈ added → created_graph e = Some pb →
      pb = serialize_whole_graph op_to_protobuf add_edges σ'
             (all_op_references σ' (transform_returns ++ co_parameters c)).
Proof.
  intros Hinit new_returns.
  apply init_Some in Hinit as (nr & Hprep & Hd).
  apply prepare_graph_new_returns in Hprep. fold new_returns in Hprep.
  subst nr.
  apply distribute_requests in Hd
    as (trs & setup & creates & gets & Htrs & Hsetup & Hc & Hg & _ & ->).
  eexists _, trs. split_and!; [done..|].
  intros e pb He Hpb.
  destruct (created_graph_worker _ _ Hpb) as [t Ht].
  apply setup_events in Hsetup as [Hs _].
  apply get_events in Hg as (_ & Hg2 & _); [|naive_solver].
  apply elem_of_cons in He as [->|He]; [done|].
  apply elem_of_app in He as [He|He].
  { by rewrite (omap_nil_elem_of _ _ _ Hs He) in Ht. }
  apply elem_of_app in He as [He|He].
  - apply elem_of_concat in He as (evs & [j Hj]%list_elem_of_lookup_1 & He).
    destruct (Forall2_lookup_r _ _ _ _ _ Hc Hj)
      as (t' & _ & rs & ps & tops & _ & _ & _ & ->).
    apply elem_of_cons in He as [->|He]; [done|].
    apply list_elem_of_singleton in He as ->. simpl in Hpb. congruence.
  - by rewrite (omap_nil_elem_of _ _ _ Hg2 He) in Ht.
Qed.

(** The indices a build records for a worker are positions of parameters
    that worker owns, in ascending order; so a call with at least as many
    arguments as there are parameters can feed every worker. *)
Theorem param_idx_ascending_in_range hetr σ log c comp hetr' σ' log' :
  init'' hetr σ log c = Some (comp, hetr', σ', log') →
  (∀ t child, (t, child) ∈ child_computations comp →
     (∀ k g, param_idx child !! k = Some g →
        ∃ p, co_parameters c !! g = Some p ∧
             is_my_op σ' p t = Some true) ∧
     (∀ j k x y, (j < k)%nat → param_idx child !! j = Some x →
        param_idx child !! k = Some y → (x < y)%nat)) ∧
  (∀ args : list Val, (length (co_parameters c) ≤ length args)%nat →
     is_Some (feed_all args (child_computations comp))).
Proof.
  intros (new_returns & Hd)%init_requests.
  apply distribute_requests in Hd
    as (trs & setup & creates & gets & _ & _ & _ & Hg & -> & _).
  assert (∀ t child, (t, child) ∈ gets.*2 →
     (∀ k g, param_idx child !! k = Some g →
        ∃ p, co_parameters c !! g = Some p ∧
             is_my_op σ' p t = Some true) ∧
     (∀ j k x y, (j < k)%nat → param_idx child !! j = Some x →
        param_idx child !! k = Some y → (x < y)%nat)) as Hidx.
  { intros t child ([evs tc] & Htc & [i Hi]%list_elem_of_lookup_1)%list_elem_of_fmap.
    simpl in Htc. subst tc.
    destruct (Forall2_lookup_r _ _ _ _ _ Hg Hi)
      as (t' & _ & ips & rs & Hips & _ & [= -> -> ->]).
    simpl. split.
    - intros k g Hk. rewrite list_lookup_fmap in Hk.
      destruct (ips !! k) as [[g' p]|] eqn:Hgp; [|done].
      injection Hk as <-. apply list_elem_of_lookup_2 in Hgp.
      apply (filter_my_elem_of _ _ _ _ _ _ Hips) in Hgp as [Hin Hmy].
      apply elem_of_enumerate in Hin. eauto.
    - by apply (filter_my_enumerate_from_ascending _ _ _ _ _ Hips). }
  split; [exact Hidx|].
  intros args Hlen. apply feed_all_is_Some. apply Forall_forall.
  intros [t child] Hin. apply Forall_forall. intros g [k Hk]%list_elem_of_lookup_1.
  destruct (Hidx t child Hin) as [Hown _].
  destruct (Hown k g Hk) as (p & Hp%lookup_lt_Some & _). simpl in *. lia.
Qed.

(** The second half of the build raises as soon as a registered worker
    cannot tell whether it owns a parameter or an entry of the return
    list, as when the node has no ['transformer'] metadata. *)
Theorem distribute_raises_without_ownership hetr σ log c new_returns t p :
  t ∈ child_transformers hetr →
  p ∈ co_parameters c ∨ p ∈ oset_union (send_nodes hetr) new_returns →
  is_my_op σ p t = None →
  @distribute PbOp PbEdge Val op_to_protobuf add_edges all_op_references
    py_int hetr σ log c new_returns = None.
Proof.
  intros Ht Hp Hnone. unfold distribute.
  destruct (setup_child_transformers _ _ _) as [setup|]; [simpl|done].
  destruct (mapM (transform_op σ) _) as [trs|]; [simpl|done].
  destruct Hp as [Hp|Hp].
  - assert (mapM (λ t_name, filter_my σ t_name id (co_parameters c))
              (child_transformers hetr) = None) as ->; [|done].
    apply mapM_None_elem_of with t; [done|].
    by apply (filter_my_None _ _ id _ p).
  - destruct (mapM (λ t_name, filter_my σ t_name id (co_parameters c)) _);
      [simpl|done].
    assert (mapM (λ t_name, filter_my σ t_name id
                              (oset_union (send_nodes hetr) new_returns))
              (child_transformers hetr) = None) as ->; [|done].
    apply mapM_None_elem_of with t; [done|].
    by apply (filter_my_None _ _ id _ p).
Qed.

(** The slot a build records for a return in a worker's [comp.returns] is
    the position, in the list of operations sent to that worker, of the
    operation that stands for this return: the return itself or the
    argument of its wrapper. *)
Theorem comp_returns_slots hetr σ log c comp hetr' σ' log' t child k i :
  init'' hetr σ log c = Some (comp, hetr', σ', log') →
  (t, child) ∈ child_computations comp →
  cc_returns child !! k = Some i →
  ∃ pb tops ps o top,
    CreateComputation t pb tops ps ∈ log' ∧
    tops !! i = Some top ∧
    transform_op σ' o = Some top ∧
    return_key σ' (init_returns (co_returns c)) o = Some k ∧
    is_my_op σ' o t = Some true.
Proof.
  intros (new_returns & Hd)%init_requests Hchild Hk.
  apply distribute_requests in Hd
    as (trs & setup & creates & gets & _ & _ & Hc & Hg & -> & ->).
  apply list_elem_of_fmap in Hchild
    as ([evs tc] & Htc & [j Hj]%list_elem_of_lookup_1).
  simpl in Htc. subst tc.
  destruct (Forall2_lookup_r _ _ _ _ _ Hg Hj)
    as (t' & Ht' & ips & rs & _ & Hrs & [= -> -> ->]).
  destruct (Forall2_lookup_l _ _ _ _ _ Hc Ht')
    as (cevs & Hcevs & rs' & ps & tops & Hrs' & _ & Htops & ->).
  rewrite Hrs in Hrs'. injection Hrs' as <-.
  simpl in Hk. apply comp_returns_lookup in Hk as (o & Ho & Hkey).
  apply mapM_Some in Htops.
  destruct (Forall2_lookup_l _ _ _ _ _ Htops Ho) as (top & Htop & Htr).
  eexists _, tops, ps, o, top. split_and!; try done.
  - apply elem_of_app; right. apply elem_of_cons; right.
    apply elem_of_app; right. apply elem_of_app; left.
    apply elem_of_concat. eexists.
    split; [by eapply list_elem_of_lookup_2|]. right; left.
  - apply list_elem_of_lookup_2 in Ho.
    by apply (filter_my_elem_of _ _ _ _ _ _ Hrs) in Ho as [_ ?].
Qed.
End BuildExtras.

(** ** More on the invocation *)

Section CallExtras.
Context {PbOp PbEdge Val : Type}.
Variable worker_results : string → list Val → gmap op Val.

Abbreviation call' :=
  (@HetrComputation_call PbOp PbEdge Val worker_results).

Lemma call_log (self : HetrComputation) (args : list Val) log r :
  call' self args = Some (log, r) →
  ∃ fed, feed_all args (child_computations self) = Some fed ∧
         log = ((λ tv, FeedInput tv.1 tv.2) <$> fed)
               ++ (GetResults <$> fed.*1).
Proof.
  unfold HetrComputation_call. intros H. bind_inv H fed Hfed.
  exists fed. split; [done|].
  repeat case_match; simplify_option_eq; done.
Qed.

(** A call that returns has fed every child, in the order of the children,
    before it collected from any, and has collected from every child in
    the same order, whatever the shape of the declared returns. *)
Theorem call_feeds_before_collects (self : HetrComputation)
    (args : list Val) log r :
  @HetrComputation_call PbOp PbEdge Val worker_results self args
  = Some (log, r) →
  (omap fed_input log).*1 = (child_computations self).*1 ∧
  omap collected_worker log = (child_computations self).*1 ∧
  ∀ i j e e', log !! i = Some e → log !! j = Some e' →
    is_Some (fed_input e) → is_Some (collected_worker e') → (i < j)%nat.
Proof.
  intros (fed & Hfed & ->)%call_log.
  apply feed_all_names in Hfed as <-.
  destruct (call_log_feeds (PbOp:=PbOp) (PbEdge:=PbEdge) fed) as [Hf1 Hf2].
  destruct (call_log_collects (PbOp:=PbOp) (PbEdge:=PbEdge) (Val:=Val)
              fed.*1) as [Hc1 Hc2].
  rewrite !omap_app Hf1 Hf2 Hc1 Hc2 app_nil_r. split_and!; [done..|].
  intros i j e e'. by apply events_ordered.
Qed.

Lemma merge_results_foldl_None (fed : list (string * list Val)) acc o :
  (∀ tv, tv ∈ fed → worker_results tv.1 tv.2 !! o = None) →
  foldl (λ return_vals tv, worker_results tv.1 tv.2 ∪ return_vals) acc fed
    !! o = acc !! o.
Proof.
  revert acc. induction fed as [|tv fed IH]; intros acc Hnone; [done|].
  cbn [foldl]. rewrite IH; [|intros; apply Hnone; by right].
  rewrite lookup_union_r //. apply Hnone. by left.
Qed.

(** The merged table answers for a node with what the last child that
    reports the node says, and holds nothing that no child reports. *)
Theorem merge_results_last_wins (fed : list (string * list Val)) o :
  (∀ fed1 tv fed2 v,
     fed = fed1 ++ tv :: fed2 →
     worker_results tv.1 tv.2 !! o = Some v →
     (∀ tv', tv' ∈ fed2 → worker_results tv'.1 tv'.2 !! o = None) →
     merge_results worker_results fed !! o = Some v) ∧
  (∀ v, merge_results worker_results fed !! o = Some v →
        ∃ tv, tv ∈ fed ∧ worker_results tv.1 tv.2 !! o = Some v).
Proof.
  split.
  - intros fed1 tv fed2 v -> Hv Hnone. unfold merge_results.
    rewrite foldl_app. cbn [foldl]. rewrite merge_results_foldl_None //.
    by apply lookup_union_Some_l.
  - unfold merge_results. induction fed as [|tv fed IH] using rev_ind.
    { by intros v ?. }
    intros v. rewrite foldl_app. cbn [foldl].
    intros [Hv|[_ Hv]]%lookup_union_Some_raw.
    + exists tv. split; [set_solver|done].
    + destruct (IH v Hv) as (tv' & ? & ?). exists tv'. split; [set_solver|done].
Qed.

(** A declared return that no child reports makes the call raise instead
    of returning a partial result. *)
Theorem call_raises_on_missing_return (self : HetrComputation)
    (args : list Val) fed o :
  feed_all args (child_computations self) = Some fed →
  (∀ tv, tv ∈ fed → worker_results tv.1 tv.2 !! o = None) →
  co_returns (computation_op self) = RetOp o ∨
  (∃ l, o ∈ l ∧ (co_returns (computation_op self) = RetSequence l ∨
                 co_returns (computation_op self) = RetOrderedSet l)) →
  @HetrComputation_call PbOp PbEdge Val worker_results self args = None.
Proof.
  intros Hfed Hnone Hret. unfold HetrComputation_call. rewrite Hfed /=.
  assert (merge_results worker_results fed !! o = None) as Ho.
  { unfold merge_results. by rewrite merge_results_foldl_None. }
  destruct Hret as [->|(l & Hl & [->| ->])].
  - by rewrite Ho.
  - by rewrite (mapM_None_elem_of _ _ o Hl).
  - by rewrite (mapM_None_elem_of _ _ o Hl).
Qed.

(** A call with too few arguments for an index some child recorded
    raises, whatever the declared returns. *)
Theorem call_raises_on_short_args (self : HetrComputation)
    (args : list Val) t child i :
  (t, child) ∈ child_computations self →
  i ∈ param_idx child → (length args ≤ i)%nat →
  @HetrComputation_call PbOp PbEdge Val worker_results self args = None.
Proof.
  intros Hchild Hi Hlen. unfold HetrComputation_call.
  assert (feed_all args (child_computations self) = None) as ->; [|done].
  apply mapM_None_elem_of with (t, child); [done|]. simpl.
  unfold feed_values.
  rewrite (mapM_None_elem_of _ _ i Hi) //. by apply lookup_ge_None_2.
Qed.
End CallExtras.

(** ** More on closing and on local transformers *)

Section CloseExtras.
Context {PbOp PbEdge Val : Type}.

(** After the owner has closed an open transformer, a [close] from any
    process does nothing more. *)
Theorem close_after_owner_close getpid
    (s : HetrTransformer * list (event PbOp PbEdge Val)) :
  is_closed s.1 = false →
  close getpid (close (my_pid s.1) s) = close (my_pid s.1) s.
Proof.
  destruct s as [self log]; simpl. intros ->.
  by rewrite Z.eqb_refl.
Qed.

(** [build_transformer] hands back a transformer in two cases only: the
    cpu transformer for a name with ['cpu'] in it, and, for a name with
    ['gpu'] and no ['cpu'] in it, the gpu transformer on the rank of the
    communicator when the backend can be imported and a communicator is
    given. *)
Theorem build_transformer_returns gpu_importable name comm lt :
  (@build_transformer PbOp PbEdge Val gpu_importable name comm).2 = Some lt ↔
  (str_contains "cpu" name = true ∧
   lt = {| lt_backend := "cpu"; lt_device_id := None |}) ∨
  (str_contains "cpu" name = false ∧ str_contains "gpu" name = true ∧
   gpu_importable = true ∧
   ∃ rank, comm = Some rank ∧
           lt = {| lt_backend := "gpu"; lt_device_id := Some rank |}).
Proof.
  unfold build_transformer.
  destruct (str_contains "cpu" name), (str_contains "gpu" name),
    gpu_importable, comm; simpl; naive_solver.
Qed.
End CloseExtras.

(** ** The launch *)

Lemma existsb_concat_false {A} (f : A → bool) (ls : list (list A)) :
  (∀ l, l ∈ ls → existsb f l = false) → existsb f (concat ls) = false.
Proof.
  induction ls as [|l ls IH]; intros Hall; [done|].
  simpl. rewrite existsb_app Hall; [|by left].
  rewrite IH //. intros l' ?. apply Hall. by right.
Qed.

Section LaunchFacts.
Context {PbOp PbEdge Val : Type}.
Variable op_to_protobuf : heap → op → PbOp.
Variable add_edges : heap → list PbEdge → list PbOp → op → list PbEdge.
Variable all_op_references : heap → list op → list op.
Variable graph_passes :
  list (list op → heap * HetrTransformer
        → option (heap * HetrTransformer)).
Variable py_int : string → option Z.

(** A successful build launches the workers once, before anything else
    it asks of the launcher or of a worker: one process for each registered
    worker, with one process per node when the default device is ['cpu']
    and all processes on one node otherwise. *)
Theorem build_launches_first hetr σ log c comp hetr' σ' log' :
  @HetrComputation_init PbOp PbEdge Val op_to_protobuf add_edges
    all_op_references graph_passes py_int hetr σ log c
  = Some (comp, hetr', σ', log') →
  ∃ rest,
    log' = log ++ Launch (length (child_transformers hetr'))
                    (if String.eqb (default_device hetr') "cpu"
                     then 1%nat else length (child_transformers hetr'))
                  :: rest ∧
    existsb is_launch rest = false.
Proof.
  intros (new_returns & Hd)%init_requests.
  apply distribute_requests in Hd
    as (trs & setup & creates & gets & _ & Hsetup & Hc & Hg & _ & ->).
  eexists. split; [done|]. rewrite !existsb_app.
  assert (existsb is_launch setup = false) as ->.
  { unfold setup_child_transformers in Hsetup. apply mapM_Some in Hsetup.
    clear -Hsetup.
    induction Hsetup as [|t e ts es He _ IH]; [done|].
    bind_inv He dev_id Hdev. injection He as <-. done. }
  rewrite !existsb_concat_false //.
  - intros evs ([evs' tc] & -> & [j Hj]%list_elem_of_lookup_1)%list_elem_of_fmap.
    destruct (Forall2_lookup_r _ _ _ _ _ Hg Hj) as (t & _ & ips & rs & _ & _ & Heq).
    by injection Heq as -> _.
  - intros evs [j Hj]%list_elem_of_lookup_1.
    by destruct (Forall2_lookup_r _ _ _ _ _ Hc Hj)
      as (t & _ & rs & ps & tops & _ & _ & _ & ->).
Qed.
End LaunchFacts.

(** ** The further properties on the worked example *)

Lemma ex_workers : child_transformers ex_hetr' = ["cpu0"; "cpu1"].
Proof. vm_compute. reflexivity. Qed.

Lemma ex_children :
  child_computations ex_comp
  = [("cpu0", {| param_idx := [0%nat]; cc_returns := {[3%nat := 0%nat]} |});
     ("cpu1", {| param_idx := [0%nat; 1%nat];
                 cc_returns := {[4%nat := 0%nat]} |})].
Proof. vm_compute. reflexivity. Qed.

Lemma serialize_first_chunk_witness :
  ∃ c, serialize_whole_graph (λ _ o, o) ex_add_edges ex_heap (seq 0 12)
         !! 0%nat = Some c ∧ length c.1 = 11%nat.
Proof. apply serialize_first_chunk. simpl. lia. Defined.

Lemma serialize_chunk_sizes_witness :
  Forall (λ c, 1 ≤ length c.1 ≤ 11)%nat
    (serialize_whole_graph (λ _ o, o) ex_add_edges ex_heap (seq 0 25)).
Proof. apply serialize_chunk_sizes. Defined.

Lemma is_my_op_substring_witness : is_my_op ex_heap10 1%nat "cpu1" = Some true.
Proof.
  apply (is_my_op_substring ex_heap10 1%nat "cpu1" "cpu10"); [reflexivity|].
  by exists "", "0".
Defined.

Lemma is_my_op_listed_witness : is_my_op ex_heap' 1%nat "cpu1" = Some true.
Proof.
  apply (is_my_op_listed ex_heap' 1%nat "cpu1" [MStr "cpu0"; MStr "cpu1"]).
  - left. vm_compute. reflexivity.
  - right; left.
Defined.

Lemma register_transformer_registry_witness :
  "cpu0" ∈ child_transformers ex_registered.
Proof.
  apply (register_transformer_registry ex_int (HetrTransformer_init "cpu" 1)
           "cpu0" ex_registered).
  reflexivity.
Defined.

Lemma register_transformer_idempotent_witness :
  register_transformer ex_int ex_registered "cpu0" = Some ex_registered.
Proof.
  apply (register_transformer_idempotent ex_int
           (HetrTransformer_init "cpu" 1)).
  reflexivity.
Defined.

Lemma register_transformer_raises_witness :
  register_transformer ex_int ex_registered "tpu0" = None.
Proof.
  apply (register_transformer_raises ex_int ex_registered "tpu0"). split.
  - intros [H|H]%elem_of_cons; [discriminate|by apply elem_of_nil in H].
  - left. reflexivity.
Defined.

Lemma transformer_after_register_witness :
  transformer ex_registered "cpu0" = Some "cpu0".
Proof.
  apply (transformer_after_register ex_int (HetrTransformer_init "cpu" 1)
           "cpu0" ex_registered).
  reflexivity.
Defined.

Lemma setup_after_registrations_witness :
  NoDup (child_transformers ex_registered2).
Proof.
  apply (setup_after_registrations (PbOp:=nat) (PbEdge:=nat * nat) (Val:=Z)
           ex_int "cpu" 1 ["cpu0"; "cpu1"; "cpu0"] ex_registered2 2%nat).
  reflexivity.
Defined.

Lemma wrap_returns_unsplit_witness :
  wrap_returns ex_heap (init_returns (RetOp 4%nat))
  = (ex_heap, init_returns (RetOp 4%nat)).
Proof.
  apply wrap_returns_unsplit. intros r Hr.
  assert (init_returns (RetOp 4%nat) = [4%nat]) as Heq by reflexivity.
  rewrite Heq in Hr. apply list_elem_of_singleton in Hr as ->.
  vm_compute. reflexivity.
Defined.

Lemma wrap_returns_preserves_witness :
  length (wrap_returns ex_heap [3%nat; 4%nat]).2 = length [3%nat; 4%nat].
Proof.
  apply (wrap_returns_preserves ex_heap (RetSequence [3%nat; 4%nat])
           (wrap_returns ex_heap [3%nat; 4%nat]).1
           (wrap_returns ex_heap [3%nat; 4%nat]).2).
  - exact ex_returns_in_heap.
  - apply surjective_pairing.
Defined.

Lemma wrap_returns_links_kept_witness :
  links_kept (wrap_returns ex_heap [3%nat; 4%nat]).1 [3%nat; 4%nat]
    (wrap_returns ex_heap [3%nat; 4%nat]).2.
Proof.
  apply (wrap_returns_links_kept ex_heap (RetSequence [3%nat; 4%nat])).
  - exact ex_returns_in_heap.
  - intros r. rewrite ex_returns !elem_of_cons elem_of_nil.
    intros [->|[->|[]]] Hs; [|by vm_compute].
    vm_compute in Hs. discriminate.
Defined.

Lemma tensor_value_hack_metadata_witness :
  is_my_op ex_tv_patched 1%nat "cpu1" = is_my_op ex_tv_heap 2%nat "cpu1".
Proof.
  destruct (tensor_value_hack_metadata ex_tv_heap 1%nat ex_tv_patched)
    as [_ Htv]; [reflexivity|].
  destruct Htv as (n & s & Hn & Hs & _ & _ & Hown); [reflexivity|].
  assert (ex_tv_heap !! 1%nat = Some (Node TensorValueOp [] [2%nat] ∅)) as Hn'
    by (by vm_compute).
  rewrite Hn' in Hn. injection Hn as <-. injection Hs as <-.
  apply Hown. vm_compute. eauto.
Defined.

Lemma create_requests_share_graph_witness :
  ∃ added transform_returns,
    ex_log' = [] ++ added ∧
    mapM (transform_op ex_heap')
      (oset_union (send_nodes ex_hetr')
         (wrap_returns ex_heap
            (init_returns (co_returns ex_computation_op))).2)
    = Some transform_returns ∧
    ∀ e pb, e ∈ added → created_graph e = Some pb →
      pb = serialize_whole_graph (λ _ o, o) ex_add_edges ex_heap'
             (transform_returns ++ co_parameters ex_computation_op).
Proof.
  exact (create_requests_share_graph (λ _ o, o) ex_add_edges
           (λ _ roots, roots) ex_passes ex_int ex_hetr ex_heap []
           ex_computation_op ex_comp ex_hetr' ex_heap' ex_log' ex_build_Some).
Defined.

Lemma returned_keys_subset_witness :
  3%nat ∈ init_returns (co_returns ex_computation_op).
Proof.
  apply (returned_keys_subset (λ _ o, o) ex_add_edges (λ _ roots, roots)
           ex_passes ex_int ex_hetr ex_heap [] ex_computation_op
           ex_comp ex_hetr' ex_heap' ex_log' ex_build_Some 3%nat).
  unfold returned_keys. rewrite ex_children. simpl. set_solver.
Defined.

Lemma build_launches_first_witness :
  ∃ rest,
    ex_log' = [] ++ Launch (length (child_transformers ex_hetr'))
                      (if String.eqb (default_device ex_hetr') "cpu"
                       then 1%nat else length (child_transformers ex_hetr'))
                    :: rest ∧
    existsb is_launch rest = false.
Proof.
  exact (build_launches_first (λ _ o, o) ex_add_edges (λ _ roots, roots)
           ex_passes ex_int ex_hetr ex_heap [] ex_computation_op
           ex_comp ex_hetr' ex_heap' ex_log' ex_build_Some).
Defined.

Lemma param_idx_ascending_in_range_witness :
  is_Some (feed_all [5%Z; 7%Z] (child_computations ex_comp)).
Proof.
  apply (param_idx_ascending_in_range (λ _ o, o) ex_add_edges
           (λ _ roots, roots) ex_passes ex_int ex_hetr ex_heap []
           ex_computation_op ex_comp ex_hetr' ex_heap' ex_log' ex_build_Some).
  simpl. lia.
Defined.

Lemma distribute_raises_without_ownership_witness :
  @distribute nat (nat * nat) Z (λ _ o, o) ex_add_edges (λ _ roots, roots)
    ex_int ex_registered2 ex_heap [] ex_computation_op [5%nat; 4%nat] = None.
Proof.
  apply (distribute_raises_without_ownership (λ _ o, o) ex_add_edges
           (λ _ roots, roots) ex_int ex_registered2 ex_heap []
           ex_computation_op [5%nat; 4%nat] "cpu0" 1%nat).
  - by left.
  - left. by left.
  - vm_compute. reflexivity.
Defined.

Lemma comp_returns_slots_witness :
  ∃ pb tops ps o top,
    CreateComputation "cpu0" pb tops ps ∈ ex_log' ∧
    tops !! 0%nat = Some top ∧
    transform_op ex_heap' o = Some top ∧
    return_key ex_heap' (init_returns (co_returns ex_computation_op)) o
    = Some 3%nat ∧
    is_my_op ex_heap' o "cpu0" = Some true.
Proof.
  apply (comp_returns_slots (λ _ o, o) ex_add_edges (λ _ roots, roots)
           ex_passes ex_int ex_hetr ex_heap [] ex_computation_op
           ex_comp ex_hetr' ex_heap' ex_log' "cpu0"
           {| param_idx := [0%nat]; cc_returns := {[3%nat := 0%nat]} |}
           3%nat 0%nat ex_build_Some).
  - rewrite ex_children. by left.
  - vm_compute. reflexivity.
Defined.

Lemma call_feeds_before_collects_witness :
  match @HetrComputation_call nat (nat * nat) Z ex_worker_results ex_comp
          [5%Z; 7%Z] with
  | Some (log, _) =>
      omap collected_worker log = (child_computations ex_comp).*1
  | None => False
  end.
Proof.
  destruct (HetrComputation_call ex_worker_results ex_comp [5%Z; 7%Z])
    as [[log r]|] eqn:Hcall.
  - by apply (call_feeds_before_collects ex_worker_results ex_comp
                [5%Z; 7%Z] log r Hcall).
  - vm_compute in Hcall. discriminate.
Defined.

Lemma merge_results_last_wins_witness :
  merge_results ex_worker_results [("cpu0", [5%Z]); ("cpu1", [5%Z; 7%Z])]
    !! 4%nat = Some 35%Z.
Proof.
  apply (proj1 (merge_results_last_wins ex_worker_results
                  [("cpu0", [5%Z]); ("cpu1", [5%Z; 7%Z])] 4%nat)
           [("cpu0", [5%Z])] ("cpu1", [5%Z; 7%Z]) []).
  - reflexivity.
  - vm_compute. reflexivity.
  - by intros tv ?%elem_of_nil.
Defined.

Lemma call_raises_on_missing_return_witness :
  @HetrComputation_call nat (nat * nat) Z ex_worker_results ex_comp_missing
    [5%Z; 7%Z] = None.
Proof.
  apply (call_raises_on_missing_return ex_worker_results ex_comp_missing
           [5%Z; 7%Z] [("cpu0", [5%Z]); ("cpu1", [5%Z; 7%Z])] 9%nat).
  - vm_compute. reflexivity.
  - intros tv. rewrite !elem_of_cons elem_of_nil.
    intros [->|[->|[]]]; vm_compute; reflexivity.
  - by left.
Defined.

Lemma call_raises_on_short_args_witness :
  @HetrComputation_call nat (nat * nat) Z ex_worker_results ex_comp [5%Z]
  = None.
Proof.
  apply (call_raises_on_short_args ex_worker_results ex_comp [5%Z] "cpu1"
           {| param_idx := [0%nat; 1%nat]; cc_returns := {[4%nat := 0%nat]} |}
           1%nat).
  - rewrite ex_children. right; left.
  - right; left.
  - simpl. lia.
Defined.

Lemma close_owner_witness :
  (@close nat (nat * nat) Z 1 (ex_registered2, [])).2
  = [CloseTransformer "cpu0"; CloseTransformer "cpu1";
     CloseClient "cpu0"; CloseClient "cpu1"; LauncherClose; BaseClose].
Proof.
  apply (close_owner (PbOp:=nat) (PbEdge:=nat * nat) (Val:=Z)
           (ex_registered2, [])).
  reflexivity.
Defined.

Lemma close_after_owner_close_witness :
  @close nat (nat * nat) Z 7 (close 1 (ex_registered2, []))
  = close 1 (ex_registered2, []).
Proof.
  apply (close_after_owner_close (PbOp:=nat) (PbEdge:=nat * nat) (Val:=Z) 7
           (ex_registered2, [])).
  reflexivity.
Defined.

Lemma build_transformer_returns_witness :
  (@build_transformer nat (nat * nat) Z true "gpu1" (Some 1%Z)).2
  = Some {| lt_backend := "gpu"; lt_device_id := Some 1%Z |}.
Proof.
  apply (build_transformer_returns (PbOp:=nat) (PbEdge:=nat * nat) (Val:=Z)
           true "gpu1" (Some 1%Z)).
  right. split_and!; try reflexivity. by exists 1%Z.
Defined.

(** ** The key set of the return mappings, and when a transformer is
    built *)

Section RevisedFacts.
Context {PbOp PbEdge Val : Type}.
Variable op_to_protobuf : heap → op → PbOp.
Variable add_edges : heap → list PbEdge → list PbOp → op → list PbEdge.
Variable all_op_references : heap → list op → list op.
Variable graph_passes :
  list (list op → heap * HetrTransformer
        → option (heap * HetrTransformer)).
Variable py_int : string → option Z.



End RevisedFacts.





